(** * TinyGraph: the directed-graph execution engine

    A shallow embedding of the [Graph<T>] class (context and patch model,
    node contract, registry and transition table, [step]/[run] loop) and
    the properties of its specification.

    Conventions of the embedding.

    - A context object is a finite map from field names to values; the
      object spread [{...a, ...b}] is the right-biased union of the two
      maps.
    - A JavaScript [Set<string>] is its list of elements in insertion
      order, without duplicates; [Array.from] of a set is that list.
    - User code (a node's [next], a function patch) may read and change
      state the engine does not see, may throw, and may be called several
      times with different effects. It is a function over an abstract
      world [W] that returns a completion together with the next world.
    - A method that mutates [this] takes the graph and returns the graph
      after the call, also when it throws.
    - An [async] method returns a promise; its model returns how the
      promise settles. [await] of a node result that never settles is not
      modelled. The [while] loop of [run] is driven by a step budget;
      [None] is a loop that is still spinning when the budget is spent.
    - The argument of every [debug] call is a template literal, which is
      evaluated whether logging is on or not. Where it holds
      [JSON.stringify] of the context or of a patch, that call throws a
      [TypeError] on a value it cannot serialise (a BigInt, a cycle);
      which values those are is a parameter, [stringifies]. Values whose
      own [toJSON] throws are not modelled. [console.error] in the
      [catch] block is kept as the [Halted] outcome of [step], which
      carries the logged error. *)

From stdpp Require Import gmap strings list fin_maps.

Open Scope string_scope.

(** ** Completions *)

(** What a [throw] carries: the engine itself raises [Error] with a
    message and, on a property access on [undefined], [TypeError];
    [RangeError] is what an array raises when it cannot grow. *)
Inductive exn : Type :=
  | TypeError
  | RangeError
  | Error (msg : string).

(** The values on which [JSON.stringify] returns instead of throwing. *)
Class JsonValue (V : Type) : Type := stringifies : V → bool.

(** Normal or abrupt completion of a call. *)
Inductive completion (A : Type) : Type :=
  | Normal (a : A)
  | Throw (e : exn).

Arguments Normal {A} a.
Arguments Throw {A} e.

(** ** Sets of names, in insertion order *)

Module StrSet.

(** [set.has(x)] *)
Definition has (x : string) (s : list string) : bool :=
  bool_decide (x ∈ s).

(** [set.add(x)] *)
Definition add (x : string) (s : list string) : list string :=
  if has x s then s else s ++ [x].

(** [new Set([x])] *)
Definition singleton (x : string) : list string := [x].

End StrSet.

Section Engine.

(** [V]: the values stored under the fields of the context;
    [W]: the state user code can reach and the engine cannot. *)
Context {V W : Type} `{!JsonValue V}.

(** [type Ctx<T> = Readonly<T>] *)
Definition Ctx : Type := gmap string V.

(** [type PatchFn<T> = (ctx: Ctx<T>) => Partial<Ctx<T>>] *)
Definition PatchFn : Type := W → gmap string V → completion (gmap string V) * W.

(** [type Patch<T> = Partial<Ctx<T>> | PatchFn<T>] *)
Inductive Patch : Type :=
  | Static (m : gmap string V)
  | Computed (f : PatchFn).

(** [type RunResult<T> = { context?: Patch<T>; transition?: string }] *)
Record RunResult : Type := {
  context : option Patch;
  transition : option string;
}.

(** How a call of [next] ends, once awaited: it threw (or its promise
    rejected), it returned nothing, or it returned a [RunResult]. *)
Inductive NodeRes : Type :=
  | Threw (e : exn)
  | Void
  | Returned (r : RunResult).

(** [interface Node<T> { next: (state, transitions: string[]) => NodeRes<T> }] *)
Definition Node : Type := W → gmap string V → list string → NodeRes * W.

(** The value of [_currentNode] when defined. [node] is [None] when the
    pointer was moved to a name for which [_nodes.get] gave [undefined]. *)
Record CurrentNode : Type := {
  node : option Node;
  key : string;
}.

(** The private fields of [class Graph<T>]. *)
Record Graph : Type := {
  _context : gmap string V;
  _currentNode : option CurrentNode;
  _transitions : gmap string (list string);
  _nodes : gmap string Node;
}.

(** [constructor()] *)
Definition new_Graph : Graph :=
  {| _context := ∅; _currentNode := None; _transitions := ∅; _nodes := ∅ |}.

Definition set_context (c : gmap string V) (g : Graph) : Graph :=
  {| _context := c; _currentNode := _currentNode g;
     _transitions := _transitions g; _nodes := _nodes g |}.

Definition set_currentNode (cur : CurrentNode) (g : Graph) : Graph :=
  {| _context := _context g; _currentNode := Some cur;
     _transitions := _transitions g; _nodes := _nodes g |}.

Definition set_transitions (t : gmap string (list string)) (g : Graph) : Graph :=
  {| _context := _context g; _currentNode := _currentNode g;
     _transitions := t; _nodes := _nodes g |}.

Definition set_nodes (n : gmap string Node) (g : Graph) : Graph :=
  {| _context := _context g; _currentNode := _currentNode g;
     _transitions := _transitions g; _nodes := n |}.

(** [{ ...context, ...patch }]: the fields of [patch] win. *)
Definition spread (context patch : gmap string V) : gmap string V :=
  patch ∪ context.

(** [private applyPatch(context, patch?)] *)
Definition applyPatch (context : gmap string V) (patch : option Patch) (w : W)
  : completion (gmap string V) * W :=
  match patch with
  | None => (Normal context, w)
  | Some (Computed f) =>
      match f w context with
      | (Normal m, w') => (Normal (spread context m), w')
      | (Throw e, w') => (Throw e, w')
      end
  | Some (Static m) => (Normal (spread context m), w)
  end.

(** [JSON.stringify] returns on an object when it returns on the value
    of each of its fields. *)
Definition ctx_ok (c : gmap string V) : bool :=
  forallb (λ kv, stringifies kv.2) (map_to_list c).

(** [JSON.stringify(context)], evaluated for a log message: only
    whether it throws matters. *)
Definition stringify (c : gmap string V) : completion unit :=
  if ctx_ok c then Normal tt else Throw TypeError.

(** [JSON.stringify(patch)] returns [undefined] on a function and on
    [undefined]. *)
Definition patch_ok (patch : option Patch) : bool :=
  match patch with
  | Some (Static m) => ctx_ok m
  | Some (Computed _) => true
  | None => true
  end.

(** [get context()] *)
Definition Graph_context (g : Graph) : gmap string V := _context g.

(** [get current()]: [this._currentNode?.key] *)
Definition current (g : Graph) : option string :=
  key <$> _currentNode g.

(** [get availableTransitions()]:
    [this._transitions.get(this._currentNode!.key)]. The [!] is erased
    at run time; reading [key] of [undefined] throws. *)
Definition availableTransitions (g : Graph) : completion (option (list string)) :=
  match _currentNode g with
  | None => Throw TypeError
  | Some cur => Normal (_transitions g !! key cur)
  end.

(** [edge(l, r)]; the result is [this], returned for chaining. *)
Definition edge (l r : string) (g : Graph) : Graph :=
  match _transitions g !! l with
  | None => set_transitions (<[l := StrSet.singleton r]> (_transitions g)) g
  | Some existing => set_transitions (<[l := StrSet.add r existing]> (_transitions g)) g
  end.

(** [node(key, toAdd)]; the result is [this], returned for chaining. The
    name [node] is taken by the field of [_currentNode]. *)
Definition add_node (key : string) (toAdd : Node) (g : Graph) : Graph :=
  set_nodes (<[key := toAdd]> (_nodes g)) g.

Definition setStart_message : string :=
  "Cannot start from node that has not been registered in graph. " ++
  "Start should be after adding nodes.".

(** [setStart(nodeName)]. The graph in the result is [this] after the
    call: unchanged when the call throws, and the builder that is
    returned for chaining when it does not. *)
Definition setStart (nodeName : string) (g : Graph) : completion unit * Graph :=
  match _nodes g !! nodeName with
  | None => (Throw (Error setStart_message), g)
  | Some n => (Normal tt, set_currentNode {| node := Some n; key := nodeName |} g)
  end.

(** How the promise of [step] settles. [Continue] resolves with [true];
    [Done] resolves with [false] from one of the two [return false] of
    the [try] block; [Halted e] resolves with [false] from the [catch]
    block, after [e] was written to [console.error]; [Rejected e] is an
    exception that left [step]. *)
Inductive StepOutcome : Type :=
  | Continue
  | Done
  | Halted (e : exn)
  | Rejected (e : exn).

(** What the caller of [step] observes. *)
Definition step_value (o : StepOutcome) : completion bool :=
  match o with
  | Continue => Normal true
  | Done => Normal false
  | Halted _ => Normal false
  | Rejected e => Throw e
  end.

Definition invalid_transition_message (from to : string) : string :=
  "Invalid transition from " ++ from ++ " > " ++ to.

(** [neighbors?.has(transition)] for
    [neighbors = this._transitions.get(from)]; an [undefined] set makes
    the test falsy. *)
Definition wired (g : Graph) (from transition : string) : bool :=
  from_option (StrSet.has transition) false (_transitions g !! from).

(** The part of the [try] block of [step] after a truthy [res]: the
    patch is logged, merged, the context is logged, and the transition
    is looked at. A throw of either [JSON.stringify] is caught like any
    other. *)
Definition step_result (cur : CurrentNode) (res : RunResult) (g : Graph) (w : W)
  : StepOutcome * Graph * W :=
  if patch_ok (context res) then
    match
      match context res with
      | None => (Normal (_context g), w)
      | Some patch => applyPatch (_context g) (Some patch) w
      end
    with
    | (Throw e, w') => (Halted e, g, w')
    | (Normal c, w') =>
        let g1 := set_context c g in
        match stringify c with
        | Throw e => (Halted e, g1, w')
        | Normal _ =>
            match transition res with
            | None => (Done, g1, w')
            | Some EmptyString => (Done, g1, w')
            | Some t =>
                if wired g1 (key cur) t
                then (Continue,
                      set_currentNode {| node := _nodes g1 !! t; key := t |} g1, w')
                else (Halted (Error (invalid_transition_message (key cur) t)), g1, w')
            end
        end
    end
  else (Halted TypeError, g, w).

(** [async step(context?)]. In [this._currentNode?.node.next(...)] an
    undefined [_currentNode] short-circuits the whole chain: neither the
    callee nor the arguments are evaluated and [res] is [undefined]. A
    defined [_currentNode] whose [node] is [undefined] throws on [.next],
    inside the [try] block. The merge of the patch and the log of the
    merged context come before the [try] block: a throw of either leaves
    [step], the second one after [_context] was assigned. *)
Definition step (patch : option Patch) (g : Graph) (w : W)
  : StepOutcome * Graph * W :=
  match applyPatch (_context g) patch w with
  | (Throw e, w0) => (Rejected e, g, w0)
  | (Normal c0, w0) =>
      let g0 := set_context c0 g in
      match stringify c0 with
      | Throw e => (Rejected e, g0, w0)
      | Normal _ =>
          match _currentNode g0 with
          | None => (Done, g0, w0)
          | Some cur =>
              match node cur with
              | None => (Halted TypeError, g0, w0)
              | Some n =>
                  match availableTransitions g0 with
                  | Throw e => (Halted e, g0, w0)
                  | Normal available =>
                      match n w0 (_context g0) (default [] available) with
                      | (Threw e, w1) => (Halted e, g0, w1)
                      | (Void, w1) => (Done, g0, w1)
                      | (Returned res, w1) => step_result cur res g0 w1
                      end
                  end
              end
          end
      end
  end.

(** How the promise of [run] settles, with the graph and the world it
    leaves behind. *)
Definition RunOutcome : Type := completion (gmap string V) * Graph * W.

(** [while (await this.step(context)) {}  return this._context;] *)
Fixpoint run_loop (fuel : nat) (patch : option Patch) (g : Graph) (w : W)
  : option RunOutcome :=
  match fuel with
  | O => None
  | S fuel' =>
      let '(o, g', w') := step patch g w in
      match step_value o with
      | Normal true => run_loop fuel' patch g' w'
      | Normal false => Some (Normal (_context g'), g', w')
      | Throw e => Some (Throw e, g', w')
      end
  end.

(** [async run(context?)]: the merge, the log of the merged context,
    the loop. Nothing here is inside a [try] block. *)
Definition run (fuel : nat) (patch : option Patch) (g : Graph) (w : W)
  : option RunOutcome :=
  match applyPatch (_context g) patch w with
  | (Throw e, w0) => Some (Throw e, g, w0)
  | (Normal c0, w0) =>
      match stringify c0 with
      | Throw e => Some (Throw e, set_context c0 g, w0)
      | Normal _ => run_loop fuel patch (set_context c0 g) w0
      end
  end.

End Engine.

Arguments Ctx : clear implicits.
Arguments PatchFn : clear implicits.
Arguments Patch : clear implicits.
Arguments RunResult : clear implicits.
Arguments NodeRes : clear implicits.
Arguments Node : clear implicits.
Arguments CurrentNode : clear implicits.
Arguments Graph : clear implicits.
Arguments RunOutcome : clear implicits.
Arguments new_Graph : clear implicits.

(** A function patch wrapped so that every call leaves its argument in a
    call log kept next to the world. *)
Definition logged {V W : Type} (f : PatchFn V W) : PatchFn V (W * list (gmap string V)) :=
  fun wl c =>
    match f wl.1 c with
    | (r, w') => (r, (w', (wl.2 ++ [c])%list))
    end.

(** A patch argument whose own application cannot throw: no patch, a
    static mapping, or a function patch that returns on every call. *)
Definition patch_returns {V W : Type} (p : option (Patch V W)) : Prop :=
  match p with
  | Some (Computed f) => ∀ w c, ∃ m w', f w c = (Normal m, w')
  | _ => True
  end.

(** The graph and the world at the head of iteration [k] of the loop
    of [run], when the [k] iterations before it all saw [step] resolve
    with [true]; [None] when the loop was left earlier. *)
Fixpoint loop_state {V W : Type} `{!JsonValue V} (k : nat) (p : option (Patch V W))
    (g : Graph V W) (w : W) : option (Graph V W * W) :=
  match k with
  | O => Some (g, w)
  | S k' =>
      match step p g w with
      | (Continue, g', w') => loop_state k' p g' w'
      | _ => None
      end
  end.

(** The same for a call of [run], which merges its patch and logs the
    context before the loop. *)
Definition run_state {V W : Type} `{!JsonValue V} (k : nat) (p : option (Patch V W))
    (g : Graph V W) (w : W) : option (Graph V W * W) :=
  match applyPatch (_context g) p w with
  | (Normal c0, w0) =>
      if ctx_ok c0 then loop_state k p (set_context c0 g) w0 else None
  | (Throw _, _) => None
  end.

(** The partial mapping a patch argument stands for when it is applied
    to a context: nothing, the mapping itself, or what the function
    returns on that context. *)
Definition patch_mapping {V W : Type} (p : option (Patch V W))
    (c : gmap string V) (w : W) : completion (gmap string V) * W :=
  match p with
  | None => (Normal ∅, w)
  | Some (Static m) => (Normal m, w)
  | Some (Computed f) => f w c
  end.

(** Every value can be serialised: no BigInt, no cycle. *)
Definition all_stringify (V : Type) `{!JsonValue V} : Prop :=
  ∀ v : V, stringifies v = true.

(** [run] as the specification words it: the initial patch is merged
    once, and every [step] is then called with no patch. *)
Definition run_merging_once {V W : Type} `{!JsonValue V} (fuel : nat)
    (p : option (Patch V W)) (g : Graph V W) (w : W) : option (RunOutcome V W) :=
  match applyPatch (_context g) p w with
  | (Throw e, w0) => Some (Throw e, g, w0)
  | (Normal c0, w0) =>
      match stringify c0 with
      | Throw e => Some (Throw e, set_context c0 g, w0)
      | Normal _ => run_loop fuel None (set_context c0 g) w0
      end
  end.

(** The transition table of a graph built with [edge] holds, under every
    key, a non-empty list without duplicates. *)
Definition table_wf {V W : Type} (g : Graph V W) : Prop :=
  ∀ k s, _transitions g !! k = Some s → s ≠ [] ∧ NoDup s.

(** ** Scenarios

    Graphs over integer values whose nodes append their name to the
    world, so that the world after a run is the list of the nodes that
    were invoked, in order. *)

(** Numbers are serialised without error. *)
#[global] Instance Z_json : JsonValue Z := λ _, true.

(** Numbers and BigInts: [JSON.stringify] throws on a BigInt. *)
Inductive jsnumber : Type :=
  | Num (n : Z)
  | BigInt (n : Z).

#[global] Instance jsnumber_json : JsonValue jsnumber :=
  λ v, match v with Num _ => true | BigInt _ => false end.

Module Scenario.

Definition T : Type := list string.

(** A node that returns [{ context: q, transition: t }]. *)
Definition emit (name : string) (q : option (Patch Z T)) (t : option string) : Node Z T :=
  fun w _ _ => (Returned {| context := q; transition := t |}, (w ++ [name])%list).

(** A node whose [next] returns nothing. *)
Definition silent (name : string) : Node Z T :=
  fun w _ _ => (Void, (w ++ [name])%list).

(** A node whose [next] throws. *)
Definition failing (name : string) (e : exn) : Node Z T :=
  fun w _ _ => (Threw e, (w ++ [name])%list).

(** A function patch that throws. *)
Definition boom : PatchFn Z T :=
  fun w _ => (Throw (Error "boom"), w).

(** A function patch that counts its calls in the field [n]. *)
Definition bump : PatchFn Z T :=
  fun w c => (Normal {["n" := (default 0 (c !! "n") + 1)%Z]}, w).

Definition empty : Graph Z T := new_Graph Z T.

(** [A] sets [x] to 1 and moves to [B]; [B] sets [y] to 2 and stops. *)
Definition two_nodes : Graph Z T :=
  edge "A" "B"
    (add_node "B" (emit "B" (Some (Static {["y" := 2%Z]})) None)
      (add_node "A" (emit "A" (Some (Static {["x" := 1%Z]})) (Some "B")) empty)).

Definition two_nodes_started : Graph Z T := (setStart "A" two_nodes).2.

(** Only [A -> B] is wired; [A] sets [x] to 1 and asks for [Z]. *)
Definition stray : Graph Z T :=
  edge "A" "B"
    (add_node "B" (silent "B")
      (add_node "A" (emit "A" (Some (Static {["x" := 1%Z]})) (Some "Z")) empty)).

Definition stray_started : Graph Z T := (setStart "A" stray).2.

(** [A -> Z] is wired although no node [Z] was registered. *)
Definition dangling : Graph Z T :=
  edge "A" "Z"
    (add_node "A" (emit "A" (Some (Static {["x" := 1%Z]})) (Some "Z")) empty).

Definition dangling_started : Graph Z T := (setStart "A" dangling).2.

(** [A]'s [next] throws. *)
Definition throwing : Graph Z T :=
  edge "A" "B"
    (add_node "B" (silent "B")
      (add_node "A" (failing "A" (Error "node failed")) empty)).

Definition throwing_started : Graph Z T := (setStart "A" throwing).2.

(** The chain [A -> B -> C] in which [B] returns nothing. *)
Definition chain : Graph Z T :=
  edge "B" "C" (edge "A" "B"
    (add_node "C" (emit "C" (Some (Static {["c" := 3%Z]})) None)
      (add_node "B" (silent "B")
        (add_node "A" (emit "A" (Some (Static {["a" := 1%Z]})) (Some "B")) empty)))).

Definition chain_started : Graph Z T := (setStart "A" chain).2.

(** [chain] with the pointer on [B], as after [A]'s step. *)
Definition chain_at_B : Graph Z T :=
  set_context {["a" := 1%Z]} (setStart "B" chain).2.

(** One node that always moves to itself. *)
Definition self_loop : Graph Z T :=
  (setStart "A" (edge "A" "A" (add_node "A" (emit "A" None (Some "A")) empty))).2.

(** [A] is registered and current; no edge is wired yet. *)
Definition fork : Graph Z T :=
  (setStart "A" (add_node "A" (silent "A") empty)).2.

End Scenario.

(** ** The example application that calls the engine

    The retrieval example builds graphs with the builder and runs them
    with nodes of its own. Its strings are JavaScript strings, sequences
    of UTF-16 code units: they are lists over an alphabet [A] of code
    units, with the space [U+0020], the line feed [U+000A] and the
    white space that [trim] removes given as parameters. Indices and
    sizes are integers. *)

Module JsString.

Section Units.

Context {A : Type} `{EqDecision A}.

(** [s.slice(start, end)]: a negative index counts from the end. *)
Definition slice (s : list A) (start end_ : Z) : list A :=
  let len := Z.of_nat (length s) in
  let from := if decide (start < 0)%Z then Z.max (len + start) 0 else Z.min start len in
  let to := if decide (end_ < 0)%Z then Z.max (len + end_) 0 else Z.min end_ len in
  if decide (from < to)%Z
  then take (Z.to_nat (to - from)) (drop (Z.to_nat from) s)
  else [].

(** [s.substring(start, end)]: indices are clamped to the string and
    swapped when out of order. *)
Definition substring (s : list A) (start end_ : Z) : list A :=
  let len := Z.of_nat (length s) in
  let finalStart := Z.min (Z.max start 0) len in
  let finalEnd := Z.min (Z.max end_ 0) len in
  let from := Z.min finalStart finalEnd in
  let to := Z.max finalStart finalEnd in
  take (Z.to_nat (to - from)) (drop (Z.to_nat from) s).

(** [s.indexOf(x)] for a search string [x] of one code unit. *)
Fixpoint indexOf (x : A) (s : list A) : Z :=
  match s with
  | [] => (-1)%Z
  | y :: s' =>
      if decide (y = x) then 0%Z
      else let i := indexOf x s' in if decide (i < 0)%Z then (-1)%Z else (i + 1)%Z
  end.

(** [s.trimStart()] *)
Fixpoint trimStart (is_ws : A → bool) (s : list A) : list A :=
  match s with
  | [] => []
  | x :: s' => if is_ws x then trimStart is_ws s' else s
  end.

(** [s.trim()] *)
Definition trim (is_ws : A → bool) (s : list A) : list A :=
  reverse (trimStart is_ws (reverse (trimStart is_ws s))).

(** [s.split(sep)] for a separator of one code unit; the result always
    has at least one piece. *)
Fixpoint split (sep : A) (s : list A) : list (list A) :=
  match s with
  | [] => [[]]
  | x :: s' =>
      if decide (x = sep) then [] :: split sep s'
      else match split sep s' with
           | [] => [[x]]
           | l :: ls => (x :: l) :: ls
           end
  end.

(** [pieces.join(sep)] *)
Fixpoint join (sep : A) (ls : list (list A)) : list A :=
  match ls with
  | [] => []
  | l :: ls' =>
      match ls' with
      | [] => l
      | _ :: _ => l ++ sep :: join sep ls'
      end
  end.

(** A string that is truthy: [filter((v) => v)] keeps these. *)
Definition truthy (s : list A) : bool :=
  match s with
  | [] => false
  | _ :: _ => true
  end.

End Units.

End JsString.

Section Chunker.

Context {A : Type} `{EqDecision A} (space : A) (is_ws : A → bool).

(** The default values of the parameters [maxChars] and [overlap] of
    [EmbedNode.chunk]. The method is private and its one call,
    [this.chunk(doc)], passes the text only, so these are the sizes it
    always runs with. *)
Definition maxChars : Z := 2048.

Definition overlap : Z := 256.

(** [chunks.push(c)]: an array holds at most [2^32 - 1] elements, and
    [push] on a full one throws a [RangeError]. *)
Definition push (chunks : list (list A)) (c : list A) : completion (list (list A)) :=
  if decide (Z.of_nat (length chunks) < 4294967295)%Z
  then Normal (chunks ++ [c])%list
  else Throw RangeError.

(** The [while] loop of [EmbedNode.chunk], with the two variables it
    updates, [startIndex] and [chunks]. [None] is a loop that is still
    running when the budget is spent. Indices are integers: a string
    has at most [2^53 - 1] code units, and on such a string every sum
    and difference below is exact in the double arithmetic of the
    source. *)
Fixpoint chunk_loop (fuel : nat) (text : list A)
    (startIndex : Z) (chunks : list (list A))
  : option (completion (list (list A))) :=
  if decide (startIndex < Z.of_nat (length text))%Z then
    match fuel with
    | O => None
    | S fuel' =>
        let centerLen := (maxChars - overlap)%Z in
        let overlapHalf := (overlap / 2)%Z in
        let endIndex := (startIndex + centerLen + overlap)%Z in
        if decide (startIndex < 1)%Z then
          match push chunks (JsString.slice text 0 endIndex) with
          | Throw e => Some (Throw e)
          | Normal chunks' => chunk_loop fuel' text endIndex chunks'
          end
        else
          let overlapIdx := Z.max 0 (startIndex - overlapHalf) in
          let overlapStr :=
            JsString.substring text overlapIdx (overlapIdx + overlapHalf) in
          let nextSpace := JsString.indexOf space overlapStr in
          let slice :=
            JsString.slice text (startIndex - overlapHalf + nextSpace) endIndex in
          if decide (0 < length (JsString.trim is_ws slice)) then
            match push chunks (JsString.trim is_ws slice) with
            | Throw e => Some (Throw e)
            | Normal chunks' => chunk_loop fuel' text endIndex chunks'
            end
          else chunk_loop fuel' text endIndex chunks
    end
  else Some (Normal chunks).

(** [private chunk(text, maxChars = 2048, overlap = 256)], as called. *)
Definition chunk (fuel : nat) (text : list A)
  : option (completion (list (list A))) :=
  chunk_loop fuel text 0 [].

(** How [this.chunk(doc)] ends in [EmbedNode.next]. The budget is the
    length of the text, with which the loop always ends, so that the
    second branch is never taken. *)
Definition chunk_default (doc : list A) : completion (list (list A)) :=
  match chunk (length doc) doc with
  | Some r => r
  | None => Normal []
  end.

(** The [for] loop of [EmbedNode.next] over [state.embed.documents],
    with the variable [chunksToEmb] it updates. The array literal
    [[...chunksToEmb, ...chunks]] is the concatenation of the two
    arrays. *)
Fixpoint chunk_docs (docs : list (list A)) (chunksToEmb : list (list A))
  : completion (list (list A)) :=
  match docs with
  | [] => Normal chunksToEmb
  | doc :: rest =>
      match chunk_default doc with
      | Throw e => Throw e
      | Normal chunks =>
          if decide (length chunks < 1) then chunk_docs rest chunksToEmb
          else chunk_docs rest (chunksToEmb ++ chunks)%list
      end
  end.

(** A chunk as [trim] leaves it when it is pushed: not empty, and
    neither its first nor its last code unit is white space. *)
Definition trimmed (c : list A) : Prop :=
  c ≠ [] ∧
  (∀ x, head c = Some x → is_ws x = false) ∧
  (∀ x, last c = Some x → is_ws x = false).

(** A contiguous piece of a string. *)
Definition piece_of (text c : list A) : Prop :=
  ∃ before after : list A, text = (before ++ c ++ after)%list.

End Chunker.

Module Rag.

Section Pipeline.

(** [A]: code units; [F]: the numbers of an embedding vector; [U]: the
    state of the embedding service; [Db]: the state of the database. *)
Context {A : Type} `{EqDecision A} (space newline : A) (is_ws : A → bool).
Context {F U Db : Type}.

(** [client.embeddings.create({ input, ... })], reduced to the list of
    the [embedding] fields of [out.data]. *)
Variable embeddings_create : U → list (list A) → completion (list (list F)) * U.

(** [initDb()] and [insertEmbedding(text, emb)] of the database module:
    statements sent to the database. *)
Variable initDb : Db → completion unit * Db.
Variable insertEmbedding : Db → list A → list F → completion unit * Db.

(** [type EmbeddingAndChunk = { text: string; embed: number[] }] *)
Record EmbeddingAndChunk : Type := {
  text : list A;
  embed : list F;
}.

(** [type EmbedResult = { documents: string[] | string; embedded?: ... }],
    with [documents] an array, as every caller passes it. *)
Record EmbedResult : Type := {
  documents : list (list A);
  embedded : option (list EmbeddingAndChunk);
}.

(** Strings and arrays of numbers are serialised without error. *)
#[global] Instance EmbedResult_json : JsonValue EmbedResult := λ _, true.

(** [inp.map((v, i) => ({ text: v, embed: out.data[i]!.embedding }))]:
    reading [embedding] of a missing [out.data[i]] throws. *)
Fixpoint pair_up (inp : list (list A)) (data : list (list F))
  : option (list EmbeddingAndChunk) :=
  match inp with
  | [] => Some []
  | v :: inp' =>
      match data with
      | [] => None
      | d :: data' => cons {| text := v; embed := d |} <$> pair_up inp' data'
      end
  end.

(** [llmEmbed(input)] for an array [input]. *)
Definition llmEmbed (input : list (list A)) (u : U)
  : completion (list EmbeddingAndChunk) * U :=
  match embeddings_create u input with
  | (Throw e, u') => (Throw e, u')
  | (Normal data, u') =>
      match pair_up input data with
      | Some vec => (Normal vec, u')
      | None => (Throw TypeError, u')
      end
  end.

(** [EmbedNode.next(state)], for the node built by [new EmbedNode(to)].
    The graph is a [Graph<StoreState>]: its context has the one field
    [embed]. *)
Definition EmbedNode_next (to : string) : Node EmbedResult (U * Db) :=
  fun w state _ =>
    match state !! "embed" with
    | None => (Threw TypeError, w)
    | Some e =>
        match chunk_docs space is_ws (documents e) [] with
        | Throw err => (Threw err, w)
        | Normal chunksToEmb =>
            match llmEmbed chunksToEmb w.1 with
            | (Throw err, u') => (Threw err, (u', w.2))
            | (Normal chunks, u') =>
                (Returned
                   {| context :=
                        Some (Static {["embed" :=
                          {| documents := documents e; embedded := Some chunks |}]});
                      transition := Some to |},
                 (u', w.2))
            end
        end
    end.

(** [for (let emb of embs) { await insertEmbedding(emb.text, emb.embed) }] *)
Fixpoint insert_all (embs : list EmbeddingAndChunk) (db : Db) : completion unit * Db :=
  match embs with
  | [] => (Normal tt, db)
  | emb :: rest =>
      match insertEmbedding db (text emb) (embed emb) with
      | (Throw e, db') => (Throw e, db')
      | (Normal _, db') => insert_all rest db'
      end
  end.

(** [StoreNode.next(state)]: iterating [state.embed.embedded] when it is
    [undefined] throws a [TypeError]. *)
Definition StoreNode_next : Node EmbedResult (U * Db) :=
  fun w state _ =>
    match state !! "embed" with
    | None => (Threw TypeError, w)
    | Some e =>
        match embedded e with
        | None => (Threw TypeError, w)
        | Some embs =>
            match insert_all embs w.2 with
            | (Throw err, db') => (Threw err, (w.1, db'))
            | (Normal _, db') => (Void, (w.1, db'))
            end
        end
    end.

(** [input.toString().split("\n").filter((v) => v).join("\n")] *)
Definition inputTrimmed (input : list A) : list A :=
  JsString.join newline (filter (λ v, JsString.truthy v = true) (JsString.split newline input)).

(** The graph [embed] builds, up to [setStart]. *)
Definition embed_builder : completion unit * Graph EmbedResult (U * Db) :=
  setStart "embed"
    (edge "embed" "store"
      (add_node "store" StoreNode_next
        (add_node "embed" (EmbedNode_next "store")
          (new_Graph EmbedResult (U * Db))))).

(** The argument of [run] in [embed]. *)
Definition embed_patch (input : list A) : option (Patch EmbedResult (U * Db)) :=
  Some (Static {["embed" :=
    {| documents := [inputTrimmed input]; embedded := None |}]}).

(** [async function embed(input)] of the server; the name [embed] is
    taken by the field of [EmbeddingAndChunk]. *)
Definition server_embed (fuel : nat) (input : list A) (w : U * Db)
  : option (completion (gmap string EmbedResult) * (U * Db)) :=
  match initDb w.2 with
  | (Throw e, db') => Some (Throw e, (w.1, db'))
  | (Normal _, db') =>
      match embed_builder with
      | (Throw e, _) => Some (Throw e, (w.1, db'))
      | (Normal _, graph) =>
          match run fuel (embed_patch input) graph (w.1, db') with
          | None => None
          | Some (r, _, w') => Some (r, w')
          end
      end
  end.

End Pipeline.

End Rag.

(** ** Sample texts and services

    Code units as characters, and an embedding service and a database
    that always answer: the database is the list of the rows inserted. *)

Module Sample.

Definition units (s : string) : list Ascii.ascii := String.list_ascii_of_string s.

Definition sp : Ascii.ascii := Ascii.ascii_of_nat 32.

Definition lf : Ascii.ascii := Ascii.ascii_of_nat 10.

Definition ws (a : Ascii.ascii) : bool :=
  bool_decide (a = sp) || bool_decide (a = lf).

Definition rows : Type := list (list Ascii.ascii * list nat).

Definition service (u : unit) (inp : list (list Ascii.ascii))
  : completion (list (list nat)) * unit :=
  (Normal (map (λ _, [1]) inp), u).

Definition init (db : rows) : completion unit * rows := (Normal tt, db).

Definition insert (db : rows) (t : list Ascii.ascii) (e : list nat)
  : completion unit * rows :=
  (Normal tt, (db ++ [(t, e)])%list).

(** [A] returns a function patch that throws, with the wired and
    registered transition [B]. *)
Definition failing_patch : Graph Z Scenario.T :=
  (setStart "A"
     (edge "A" "B"
        (add_node "B" (Scenario.silent "B")
           (add_node "A"
              (Scenario.emit "A" (Some (Computed Scenario.boom)) (Some "B"))
              Scenario.empty)))).2.

(** [A] returns the empty string as transition; the empty name is wired
    from [A] and a node is registered under it. *)
Definition empty_name : Graph Z Scenario.T :=
  (setStart "A"
     (edge "A" EmptyString
        (add_node EmptyString (Scenario.silent "unnamed")
           (add_node "A"
              (Scenario.emit "A" (Some (Static {["x" := 1%Z]})) (Some EmptyString))
              Scenario.empty)))).2.

(** A text of 4200 code units: the word [graph] and a space, 700
    times. *)
Definition long_text : list Ascii.ascii :=
  concat (replicate 700 (units "graph ")).

(** Its chunks. *)
Definition long_chunks : list (list Ascii.ascii) :=
  match chunk sp ws 3 long_text with
  | Some (Normal chunks) => chunks
  | _ => []
  end.


(** A started graph whose values may be BigInts; its node returns
    nothing. *)
Definition with_bigints : Graph jsnumber Scenario.T :=
  (setStart "A"
     (add_node "A" (fun w _ _ => (Void, (w ++ ["A"])%list))
        (new_Graph jsnumber Scenario.T))).2.

(** [A] returns the static patch [{n: 1n}] and the name [Z], which is
    not wired. *)
Definition bigint_patch : Graph jsnumber Scenario.T :=
  (setStart "A"
     (add_node "A"
        (fun w _ _ =>
           (Returned {| context := Some (Static {["n" := BigInt 1]});
                        transition := Some "Z" |}, (w ++ ["A"])%list))
        (new_Graph jsnumber Scenario.T))).2.

(** [A] returns a function patch that throws and the name [Z], which
    is not wired. *)
Definition stray_failing_patch : Graph Z Scenario.T :=
  (setStart "A"
     (edge "A" "B"
        (add_node "B" (Scenario.silent "B")
           (add_node "A"
              (Scenario.emit "A" (Some (Computed Scenario.boom)) (Some "Z"))
              Scenario.empty)))).2.

End Sample.

(** ** Sets of names *)

Module StrSetFacts.

Lemma has_true (x : string) (s : list string) :
  StrSet.has x s = true ↔ x ∈ s.
Proof. unfold StrSet.has. apply bool_decide_eq_true. Qed.

Lemma has_false (x : string) (s : list string) :
  StrSet.has x s = false ↔ x ∉ s.
Proof. unfold StrSet.has. apply bool_decide_eq_false. Qed.

Lemma elem_of_add (x y : string) (s : list string) :
  y ∈ StrSet.add x s ↔ y = x ∨ y ∈ s.
Proof.
  unfold StrSet.add. destruct (StrSet.has x s) eqn:Hx.
  - apply has_true in Hx. split; [auto | intros [-> | ?]; auto].
  - rewrite elem_of_app, list_elem_of_singleton. tauto.
Qed.

Lemma has_add (x : string) (s : list string) :
  StrSet.has x (StrSet.add x s) = true.
Proof. apply has_true, elem_of_add. auto. Qed.



Lemma add_NoDup (x : string) (s : list string) :
  NoDup s → NoDup (StrSet.add x s).
Proof.
  intros Hs. unfold StrSet.add. destruct (StrSet.has x s) eqn:Hx; [done |].
  apply has_false in Hx. apply NoDup_app. split_and!; [done | | apply NoDup_singleton].
  intros y Hy Hy'. apply list_elem_of_singleton in Hy'. by subst.
Qed.

Lemma add_nonempty (x : string) (s : list string) :
  StrSet.add x s ≠ [].
Proof.
  intros H. pose proof (proj2 (elem_of_add x x s) (or_introl eq_refl)) as Hin.
  rewrite H in Hin. by apply not_elem_of_nil in Hin.
Qed.

Lemma add_empty (x : string) : StrSet.add x [] = StrSet.singleton x.
Proof. reflexivity. Qed.

End StrSetFacts.

Section Builder.

Context {V W : Type}.
Implicit Types (g : Graph V W) (c m : gmap string V) (w : W).

Lemma lookup_spread c m (k : string) :
  spread c m !! k = match m !! k with Some v => Some v | None => c !! k end.
Proof.
  unfold spread. destruct (m !! k) as [v|] eqn:Hk.
  - by apply lookup_union_Some_l.
  - by rewrite lookup_union_r.
Qed.

Lemma spread_empty c : spread c ∅ = c.
Proof. unfold spread. apply (left_id_L ∅ (∪)). Qed.

Lemma spread_twice c m : spread (spread c m) m = spread c m.
Proof.
  apply map_eq. intros k. rewrite !lookup_spread. by destruct (m !! k).
Qed.

Lemma set_context_same g : set_context (_context g) g = g.
Proof. by destruct g. Qed.

Lemma set_context_twice c c' g : set_context c (set_context c' g) = set_context c g.
Proof. reflexivity. Qed.

(** Both branches of [edge] store the old set with [r] added. *)
Lemma edge_table (l r : string) g :
  _transitions (edge l r g) =
  <[l := StrSet.add r (default [] (_transitions g !! l))]> (_transitions g).
Proof. unfold edge. by destruct (_transitions g !! l). Qed.





Lemma edge_wf (l r : string) g : table_wf g → table_wf (edge l r g).
Proof.
  intros Hwf k s. rewrite edge_table. destruct (decide (l = k)) as [->|Hne].
  - rewrite lookup_insert_eq. intros [= <-]. split; [apply StrSetFacts.add_nonempty |].
    apply StrSetFacts.add_NoDup. destruct (_transitions g !! k) as [s|] eqn:Hs; simpl.
    + by apply (Hwf k s).
    + apply NoDup_nil_2.
  - rewrite lookup_insert_ne by done. apply Hwf.
Qed.

Lemma new_Graph_wf : table_wf (new_Graph V W).
Proof. intros k s. simpl. by rewrite lookup_empty. Qed.

End Builder.

(** ** The patch model and the builder *)

Section BuilderSpec.

Context {V W : Type}.
Implicit Types (g : Graph V W) (C P : gmap string V) (w : W).

(** C5. [applyPatch] is shallow merge. With no patch the context comes
    back as it is. With a static mapping [P] the result reads, under
    every key, the value of [P] when [P] has the key and the value of
    [C] otherwise. With a function patch [F] the result is that same
    merge of [C] with the mapping [F] returns on [C]; the world after
    the call is the world [F] leaves after its one call, and the call
    log of [logged F] grows by exactly the one entry [C], the context
    before the merge. *)
Theorem applyPatch_shallow_merge C w :
  applyPatch C None w = (Normal C, w) ∧
  (∀ P, ∃ C', applyPatch C (Some (Static P)) w = (Normal C', w) ∧
     ∀ k : string, C' !! k = match P !! k with Some v => Some v | None => C !! k end) ∧
  (∀ (F : PatchFn V W) P w', F w C = (Normal P, w') →
     ∃ C', applyPatch C (Some (Computed F)) w = (Normal C', w') ∧
       ∀ k : string, C' !! k = match P !! k with Some v => Some v | None => C !! k end) ∧
  (∀ (F : PatchFn V W) calls,
     (applyPatch C (Some (Computed (logged F))) (w, calls)).1 =
       (applyPatch C (Some (Computed F)) w).1 ∧
     (applyPatch C (Some (Computed (logged F))) (w, calls)).2 =
       ((F w C).2, (calls ++ [C])%list)).
Proof.
  split_and!.
  - reflexivity.
  - intros P. exists (spread C P). split; [reflexivity |].
    intros k. apply lookup_spread.
  - intros F P w' HF. exists (spread C P). split.
    + simpl. by rewrite HF.
    + intros k. apply lookup_spread.
  - intros F calls. unfold logged. simpl.
    destruct (F w C) as [[m|e] w']; simpl; done.
Qed.

(** C6. [setStart] with a name that is not in the registry throws and
    leaves the graph, and so its current pointer, as it was; with a
    registered name it returns normally and the current pointer is that
    name with the registered node, the other fields being untouched.
    [setStart] is synchronous: it neither takes nor returns a world. *)
Theorem setStart_checks_registry (name : string) g :
  (_nodes g !! name = None →
     setStart name g = (Throw (Error setStart_message), g) ∧
     current (setStart name g).2 = current g) ∧
  (∀ n, _nodes g !! name = Some n →
     (setStart name g).1 = Normal tt ∧
     _currentNode (setStart name g).2 = Some {| node := Some n; key := name |} ∧
     current (setStart name g).2 = Some name ∧
     _context (setStart name g).2 = _context g ∧
     _transitions (setStart name g).2 = _transitions g ∧
     _nodes (setStart name g).2 = _nodes g).
Proof.
  unfold setStart. split.
  - intros ->. done.
  - intros n ->. done.
Qed.


(** C10. The [availableTransitions] accessor is partial. With a current
    node whose key has no entry in the transition table it returns
    [undefined], not an empty set; with no current node it throws a
    [TypeError]. In a table built by [edge] no entry is an empty set, so
    the accessor never returns one. *)
Theorem availableTransitions_partial g :
  (∀ cur, _currentNode g = Some cur → _transitions g !! key cur = None →
     availableTransitions g = Normal None) ∧
  (_currentNode g = None → availableTransitions g = Throw TypeError) ∧
  (table_wf g → availableTransitions g ≠ Normal (Some [])).
Proof.
  unfold availableTransitions. split_and!.
  - intros cur -> ->. done.
  - intros ->. done.
  - intros Hwf. destruct (_currentNode g) as [cur|]; [|done].
    intros [= H]. by destruct (Hwf _ _ H).
Qed.

End BuilderSpec.

(** ** The execution engine *)

Section Execution.

Context {V W : Type} `{!JsonValue V}.
Implicit Types (g : Graph V W) (c m : gmap string V) (w : W)
  (p : option (Patch V W)) (cur : CurrentNode V W) (n : Node V W).

(** *** Serialising for the log *)

Lemma ctx_ok_lookup c :
  ctx_ok c = true ↔ ∀ (k : string) v, c !! k = Some v → stringifies v = true.
Proof.
  unfold ctx_ok. rewrite forallb_forall. split.
  - intros H k v Hk. apply (H (k, v)).
    apply list_elem_of_In. by apply elem_of_map_to_list.
  - intros H [k v] Hin. apply list_elem_of_In, elem_of_map_to_list in Hin.
    by apply (H k v).
Qed.

Lemma ctx_ok_all c : all_stringify V → ctx_ok c = true.
Proof. intros Hall. apply ctx_ok_lookup. intros k v _. apply Hall. Qed.

Lemma ctx_ok_empty : ctx_ok (∅ : gmap string V) = true.
Proof. apply ctx_ok_lookup. intros k v. by rewrite lookup_empty. Qed.

(** A merged context that can be serialised was merged from a patch
    that can. *)
Lemma ctx_ok_spread c m : ctx_ok (spread c m) = true → ctx_ok m = true.
Proof.
  rewrite !ctx_ok_lookup. intros H k v Hk. apply (H k v).
  by rewrite lookup_spread, Hk.
Qed.

Lemma ctx_ok_spread_both c m :
  ctx_ok c = true → ctx_ok m = true → ctx_ok (spread c m) = true.
Proof.
  rewrite !ctx_ok_lookup. intros Hc Hm k v. rewrite lookup_spread.
  destruct (m !! k) as [v'|] eqn:Hk.
  - intros [= <-]. by apply (Hm k).
  - apply Hc.
Qed.

Lemma stringify_ok c : ctx_ok c = true → stringify c = Normal tt.
Proof. unfold stringify. by intros ->. Qed.

Lemma stringify_fails c : ctx_ok c = false → stringify c = Throw TypeError.
Proof. unfold stringify. by intros ->. Qed.

Lemma stringify_throws_TypeError c e : stringify c = Throw e → e = TypeError ∧ ctx_ok c = false.
Proof. unfold stringify. destruct (ctx_ok c); [done |]. by intros [= <-]. Qed.

(** *** Merging *)

Lemma applyPatch_returns p c w :
  patch_returns p → ∃ c' w', applyPatch c p w = (Normal c', w').
Proof.
  destruct p as [[m|f]|]; simpl; intros Hp; eauto.
  destruct (Hp w c) as (m & w' & ->). eauto.
Qed.

Lemma applyPatch_static c m w :
  applyPatch c (Some (Static m)) w = (Normal (spread c m), w).
Proof. reflexivity. Qed.

(** [applyPatch] spreads, over the context, the mapping its patch
    stands for, and throws when working that mapping out throws. *)
Lemma applyPatch_mapping p c w :
  applyPatch c p w =
    match patch_mapping p c w with
    | (Normal m, w') => (Normal (spread c m), w')
    | (Throw e, w') => (Throw e, w')
    end.
Proof.
  destruct p as [[m|f]|]; simpl; [done | done |].
  by rewrite spread_empty.
Qed.

Lemma applyPatch_mapping_returns p c w m w' :
  patch_mapping p c w = (Normal m, w') →
  applyPatch c p w = (Normal (spread c m), w').
Proof. intros Hm. by rewrite applyPatch_mapping, Hm. Qed.

Lemma applyPatch_mapping_throws p c w e w' :
  patch_mapping p c w = (Throw e, w') →
  applyPatch c p w = (Throw e, w').
Proof. intros Hm. by rewrite applyPatch_mapping, Hm. Qed.

(** The guard [if (patch)] around the second [applyPatch] of [step]
    repeats the guard [if (!patch)] inside [applyPatch]. *)
Lemma guarded_applyPatch c (q : option (Patch V W)) w :
  match q with
  | None => (Normal c, w)
  | Some patch => applyPatch c (Some patch) w
  end = applyPatch c q w.
Proof. by destruct q. Qed.

(** *** One step, case by case *)

Lemma step_patch_throws p g w e w0 :
  applyPatch (_context g) p w = (Throw e, w0) →
  step p g w = (Rejected e, g, w0).
Proof. unfold step. by intros ->. Qed.

Lemma step_log_throws p g w c0 w0 :
  applyPatch (_context g) p w = (Normal c0, w0) → ctx_ok c0 = false →
  step p g w = (Rejected TypeError, set_context c0 g, w0).
Proof. unfold step. intros -> Hok. by rewrite (stringify_fails c0 Hok). Qed.

Lemma step_unstarted p g w c0 w0 :
  _currentNode g = None →
  applyPatch (_context g) p w = (Normal c0, w0) → ctx_ok c0 = true →
  step p g w = (Done, set_context c0 g, w0).
Proof.
  unfold step. intros Hcur -> Hok. rewrite (stringify_ok c0 Hok). simpl.
  by rewrite Hcur.
Qed.

Lemma step_no_instance p g w cur c0 w0 :
  _currentNode g = Some cur → node cur = None →
  applyPatch (_context g) p w = (Normal c0, w0) → ctx_ok c0 = true →
  step p g w = (Halted TypeError, set_context c0 g, w0).
Proof.
  unfold step. intros Hcur Hn -> Hok. rewrite (stringify_ok c0 Hok). simpl.
  by rewrite Hcur, Hn.
Qed.

Lemma step_invokes p g w cur n c0 w0 :
  _currentNode g = Some cur → node cur = Some n →
  applyPatch (_context g) p w = (Normal c0, w0) → ctx_ok c0 = true →
  step p g w =
    match n w0 c0 (default [] (_transitions g !! key cur)) with
    | (Threw e, w1) => (Halted e, set_context c0 g, w1)
    | (Void, w1) => (Done, set_context c0 g, w1)
    | (Returned res, w1) => step_result cur res (set_context c0 g) w1
    end.
Proof.
  unfold step, availableTransitions. intros Hcur Hn -> Hok.
  rewrite (stringify_ok c0 Hok). simpl. by rewrite Hcur, Hn.
Qed.

Lemma step_result_patch_unlogged cur (res : RunResult V W) g w :
  patch_ok (context res) = false →
  step_result cur res g w = (Halted TypeError, g, w).
Proof. unfold step_result. by intros ->. Qed.

Lemma step_result_patch_throws cur (res : RunResult V W) g w e w' :
  patch_ok (context res) = true →
  applyPatch (_context g) (context res) w = (Throw e, w') →
  step_result cur res g w = (Halted e, g, w').
Proof.
  unfold step_result. intros ->. rewrite guarded_applyPatch. by intros ->.
Qed.

Lemma step_result_log_throws cur (res : RunResult V W) g w c w' :
  patch_ok (context res) = true →
  applyPatch (_context g) (context res) w = (Normal c, w') →
  ctx_ok c = false →
  step_result cur res g w = (Halted TypeError, set_context c g, w').
Proof.
  unfold step_result. intros ->. rewrite guarded_applyPatch. intros -> Hok.
  by rewrite (stringify_fails c Hok).
Qed.

Lemma step_result_no_transition cur (res : RunResult V W) g w c w' :
  patch_ok (context res) = true →
  applyPatch (_context g) (context res) w = (Normal c, w') →
  ctx_ok c = true →
  transition res = None ∨ transition res = Some EmptyString →
  step_result cur res g w = (Done, set_context c g, w').
Proof.
  unfold step_result. intros ->. rewrite guarded_applyPatch. intros -> Hok.
  rewrite (stringify_ok c Hok). intros [-> | ->]; done.
Qed.

Lemma step_result_transition cur (res : RunResult V W) g w c w' (t : string) :
  patch_ok (context res) = true →
  applyPatch (_context g) (context res) w = (Normal c, w') →
  ctx_ok c = true →
  transition res = Some t → t ≠ EmptyString →
  step_result cur res g w =
    if wired g (key cur) t
    then (Continue,
          set_currentNode {| node := _nodes g !! t; key := t |} (set_context c g), w')
    else (Halted (Error (invalid_transition_message (key cur) t)), set_context c g, w').
Proof.
  unfold step_result. intros ->. rewrite guarded_applyPatch. intros -> Hok.
  rewrite (stringify_ok c Hok). intros -> Ht.
  destruct t; [done |]. reflexivity.
Qed.

(** The step of a node that was called and returned a result, in
    terms of the mapping the returned patch stands for. *)
Lemma step_returned p g w cur n c0 w0 (q : option (Patch V W))
    (tr : option string) w1 :
  _currentNode g = Some cur → node cur = Some n →
  applyPatch (_context g) p w = (Normal c0, w0) → ctx_ok c0 = true →
  n w0 c0 (default [] (_transitions g !! key cur)) =
    (Returned {| context := q; transition := tr |}, w1) →
  step p g w =
    if patch_ok q then
      match patch_mapping q c0 w1 with
      | (Throw e, w2) => (Halted e, set_context c0 g, w2)
      | (Normal m, w2) =>
          if ctx_ok (spread c0 m) then
            match tr with
            | None => (Done, set_context (spread c0 m) g, w2)
            | Some t =>
                if decide (t = EmptyString)
                then (Done, set_context (spread c0 m) g, w2)
                else if wired g (key cur) t
                then (Continue,
                      set_currentNode {| node := _nodes g !! t; key := t |}
                        (set_context (spread c0 m) g), w2)
                else (Halted (Error (invalid_transition_message (key cur) t)),
                      set_context (spread c0 m) g, w2)
            end
          else (Halted TypeError, set_context (spread c0 m) g, w2)
      end
    else (Halted TypeError, set_context c0 g, w1).
Proof.
  intros Hcur Hn Hp Hok Hcall.
  rewrite (step_invokes p g w cur n c0 w0 Hcur Hn Hp Hok), Hcall.
  destruct (patch_ok q) eqn:Hqok;
    [|by rewrite (step_result_patch_unlogged cur _ (set_context c0 g) w1)].
  destruct (patch_mapping q c0 w1) as [[m|e] w2] eqn:Hq.
  - pose proof (applyPatch_mapping_returns q c0 w1 m w2 Hq) as Hq'.
    destruct (ctx_ok (spread c0 m)) eqn:Hok1;
      [|by rewrite (step_result_log_throws cur _ (set_context c0 g) w1 (spread c0 m) w2)].
    destruct tr as [t|];
      [|by rewrite (step_result_no_transition cur _ (set_context c0 g) w1
                      (spread c0 m) w2); [| | | |left]].
    destruct (decide (t = EmptyString)) as [->|Ht];
      [by rewrite (step_result_no_transition cur _ (set_context c0 g) w1
                     (spread c0 m) w2); [| | | |right] |].
    by rewrite (step_result_transition cur _ (set_context c0 g) w1 (spread c0 m) w2 t).
  - by rewrite (step_result_patch_throws cur _ (set_context c0 g) w1 e w2);
      [| |apply applyPatch_mapping_throws].
Qed.

(** Whatever the node returned, the [try] block ends in one of three
    ways, none of which lets an exception out. *)
Lemma step_result_contained cur (res : RunResult V W) g w :
  ∀ e, (step_result cur res g w).1.1 ≠ Rejected e.
Proof.
  intros e. unfold step_result.
  destruct (patch_ok (context res)); [|done].
  destruct (match context res with
            | None => _ | Some patch => _ end) as [[c|e'] w']; [|done].
  destruct (stringify c) as [u|e2]; [|done].
  destruct (transition res) as [[|a t]|]; [done | | done].
  by destruct (wired _ _ _).
Qed.

(** An exception leaves [step] only from the two statements before the
    [try] block: the merge of the caller's patch, which leaves the
    graph as it was, and the log of the merged context, which comes
    after the assignment. *)
Lemma step_rejected_inv p g w e g' w' :
  step p g w = (Rejected e, g', w') →
  (applyPatch (_context g) p w = (Throw e, w') ∧ g' = g) ∨
  (∃ c0, applyPatch (_context g) p w = (Normal c0, w') ∧
     ctx_ok c0 = false ∧ e = TypeError ∧ g' = set_context c0 g).
Proof.
  destruct (applyPatch (_context g) p w) as [[c0|e0] w0] eqn:Hp.
  - destruct (ctx_ok c0) eqn:Hok.
    + destruct (_currentNode g) as [cur|] eqn:Hcur;
        [|by rewrite (step_unstarted p g w c0 w0)].
      destruct (node cur) as [n|] eqn:Hn;
        [|by rewrite (step_no_instance p g w cur c0 w0)].
      rewrite (step_invokes p g w cur n c0 w0) by done.
      destruct (n w0 c0 _) as [[e1| |res] w1]; [done | done |].
      intros H. exfalso.
      apply (step_result_contained cur res (set_context c0 g) w1 e).
      by rewrite H.
    + rewrite (step_log_throws p g w c0 w0) by done.
      intros [= <- <- <-]. right. by exists c0.
  - rewrite (step_patch_throws p g w e0 w0) by done.
    intros [= -> -> ->]. by left.
Qed.

Lemma step_contained p g w :
  patch_returns p → all_stringify V → ∀ e, (step p g w).1.1 ≠ Rejected e.
Proof.
  intros Hp Hall e H.
  destruct (step p g w) as [[o g'] w'] eqn:Hs. simpl in H. subst o.
  apply step_rejected_inv in Hs as [[Hs _] | (c0 & _ & Hok & _)].
  - destruct (applyPatch_returns p (_context g) w Hp) as (c & w0 & Hc).
    congruence.
  - rewrite (ctx_ok_all c0 Hall) in Hok. done.
Qed.

(** The pointer moves only when [step] resolves with [true]. *)
Lemma step_result_keeps_pointer cur (res : RunResult V W) g w o g' w' :
  step_result cur res g w = (o, g', w') → o ≠ Continue →
  _currentNode g' = _currentNode g.
Proof.
  unfold step_result.
  destruct (patch_ok (context res)); [|by intros [= <- <- <-]].
  destruct (match context res with
            | None => _ | Some patch => _ end) as [[c|e'] w2];
    [|by intros [= <- <- <-]].
  destruct (stringify c) as [u|e2]; [|by intros [= <- <- <-]].
  destruct (transition res) as [[|a t]|];
    [by intros [= <- <- <-] | | by intros [= <- <- <-]].
  destruct (wired _ _ _); intros [= <- <- <-]; done.
Qed.

Lemma step_keeps_pointer p g w o g' w' :
  step p g w = (o, g', w') → o ≠ Continue → _currentNode g' = _currentNode g.
Proof.
  destruct (applyPatch (_context g) p w) as [[c0|e0] w0] eqn:Hp.
  - destruct (ctx_ok c0) eqn:Hok;
      [|by rewrite (step_log_throws p g w c0 w0) by done; intros [= <- <- <-]].
    destruct (_currentNode g) as [cur|] eqn:Hcur;
      [|by rewrite (step_unstarted p g w c0 w0) by done; intros [= <- <- <-]].
    destruct (node cur) as [n|] eqn:Hn;
      [|by rewrite (step_no_instance p g w cur c0 w0) by done; intros [= <- <- <-]].
    rewrite (step_invokes p g w cur n c0 w0) by done.
    destruct (n w0 c0 _) as [[e1| |res] w1];
      [by intros [= <- <- <-] | by intros [= <- <- <-] |].
    intros Hr Ho. by rewrite (step_result_keeps_pointer _ _ _ _ _ _ _ Hr Ho).
  - rewrite (step_patch_throws p g w e0 w0) by done. by intros [= <- <- <-].
Qed.

(** *** The loop of [run] *)

Lemma run_loop_stops fuel p g w o g' w' :
  step p g w = (o, g', w') → step_value o = Normal false →
  run_loop (S fuel) p g w = Some (Normal (_context g'), g', w').
Proof. simpl. intros -> Ho. by rewrite Ho. Qed.

Lemma run_loop_rejects fuel p g w e g' w' :
  step p g w = (Rejected e, g', w') →
  run_loop (S fuel) p g w = Some (Throw e, g', w').
Proof. simpl. by intros ->. Qed.

Lemma run_loop_continues fuel p g w g' w' :
  step p g w = (Continue, g', w') →
  run_loop (S fuel) p g w = run_loop fuel p g' w'.
Proof. simpl. by intros ->. Qed.

Lemma run_loop_from k fuel p g w g' w' :
  loop_state k p g w = Some (g', w') →
  run_loop (k + fuel) p g w = run_loop fuel p g' w'.
Proof.
  revert g w. induction k as [|k IH]; intros g w; simpl.
  - by intros [= -> ->].
  - destruct (step p g w) as [[o g1] w1]. destruct o; try done.
    simpl. apply IH.
Qed.

Lemma run_from k fuel p g w g' w' :
  run_state k p g w = Some (g', w') →
  run (k + fuel) p g w = run_loop fuel p g' w'.
Proof.
  unfold run_state, run.
  destruct (applyPatch (_context g) p w) as [[c0|e0] w0]; [|done].
  destruct (ctx_ok c0) eqn:Hok; [|done].
  rewrite (stringify_ok c0 Hok). apply run_loop_from.
Qed.

(** A [run] whose loop has reached a step that reports not continuing
    resolves there, with the context that step leaves. *)
Lemma run_stops_at k fuel p gi wi g w o g' w' :
  run_state k p gi wi = Some (g, w) → k < fuel →
  step p g w = (o, g', w') → step_value o = Normal false →
  run fuel p gi wi = Some (Normal (_context g'), g', w').
Proof.
  intros Hk Hlt Hs Hv.
  replace fuel with (k + S (fuel - S k)) by lia.
  rewrite (run_from k _ p gi wi g w Hk).
  by apply (run_loop_stops _ p g w o).
Qed.

Lemma loop_state_step k p g w g' w' :
  loop_state k p g w = Some (g', w') →
  ∀ g'' w'', step p g' w' = (Continue, g'', w'') →
  loop_state (S k) p g w = Some (g'', w'').
Proof.
  revert g w. induction k as [|k IH]; intros g w.
  - simpl. intros [= -> ->] g'' w'' ->. done.
  - intros Hk g'' w'' Hs. change (loop_state (S (S k)) p g w) with
      (match step p g w with
       | (Continue, g1, w1) => loop_state (S k) p g1 w1
       | _ => None
       end).
    simpl in Hk. destruct (step p g w) as [[o g1] w1]. destruct o; try done.
    by apply (IH g1 w1 Hk).
Qed.

Lemma loop_state_stuck k p g w g' w' o g'' w'' :
  loop_state k p g w = Some (g', w') →
  step p g' w' = (o, g'', w'') → o ≠ Continue →
  ∀ j, k < j → loop_state j p g w = None.
Proof.
  revert g w. induction k as [|k IH]; intros g w.
  - simpl. intros [= -> ->] Hs Ho [|j] Hj; [lia |]. simpl. rewrite Hs.
    by destruct o.
  - simpl. destruct (step p g w) as [[o1 g1] w1] eqn:H1.
    destruct o1; try done. intros Hk Hs Ho [|j] Hj; [lia |].
    simpl. rewrite H1. apply (IH g1 w1 Hk Hs Ho). lia.
Qed.

(** An exception that leaves the loop of [run] left some step from one
    of the two statements before its [try] block. *)
Lemma run_loop_rejected_inv fuel p g w e g' w' :
  run_loop fuel p g w = Some (Throw e, g', w') →
  (∃ c wa, applyPatch c p wa = (Throw e, w')) ∨
  (e = TypeError ∧ ctx_ok (_context g') = false).
Proof.
  revert g w. induction fuel as [|fuel IH]; intros g w; simpl; [done |].
  destruct (step p g w) as [[o g1] w1] eqn:Hs.
  destruct o as [| |e1|e1]; simpl.
  - apply IH.
  - intros [=].
  - intros [=].
  - intros [= -> -> ->].
    apply step_rejected_inv in Hs as [[Hs _] | (c0 & _ & Hok & -> & ->)].
    + left. eauto.
    + right. done.
Qed.

(** With a patch that cannot throw and values that can be serialised
    the loop is either still running, all its steps so far having
    resolved with [true], or it was left at the first step that did
    not, with the context that step left. *)
Lemma run_loop_settles fuel p g w :
  patch_returns p → all_stringify V →
  (run_loop fuel p g w = None ∧ is_Some (loop_state fuel p g w)) ∨
  (∃ k gk wk o g' w', k < fuel ∧ loop_state k p g w = Some (gk, wk) ∧
     step p gk wk = (o, g', w') ∧ step_value o = Normal false ∧
     run_loop fuel p g w = Some (Normal (_context g'), g', w') ∧
     loop_state fuel p g w = None).
Proof.
  intros Hp Hall. revert g w. induction fuel as [|fuel IH]; intros g w.
  - left. simpl. eauto.
  - pose proof (step_contained p g w Hp Hall) as Hc.
    destruct (step p g w) as [[o g1] w1] eqn:Hs. simpl in Hc.
    destruct o as [| |e|e].
    + rewrite (run_loop_continues fuel p g w g1 w1 Hs).
      simpl. rewrite Hs.
      destruct (IH g1 w1) as [HN | (k & gk & wk & o & g' & w' & Hk & Hst & Ho & Hv & Hr & Hl)].
      * by left.
      * right. exists (S k), gk, wk, o, g', w'. split_and!; try done; [lia |].
        simpl. by rewrite Hs.
    + right. exists 0, g, w, Done, g1, w1. split_and!; try done; [lia | |].
      * by apply (run_loop_stops fuel p g w Done).
      * simpl. by rewrite Hs.
    + right. exists 0, g, w, (Halted e), g1, w1. split_and!; try done; [lia | |].
      * by apply (run_loop_stops fuel p g w (Halted e)).
      * simpl. by rewrite Hs.
    + by destruct (Hc e).
Qed.

End Execution.

(** ** The properties of [step] and [run] *)

Section ExecutionSpec.

Context {V W : Type} `{!JsonValue V}.
Implicit Types (g : Graph V W) (c m : gmap string V) (w : W)
  (p : option (Patch V W)) (cur : CurrentNode V W) (n : Node V W).

(** C1, as amended. For every graph, in particular after [setStart],
    and every behaviour of the nodes, [run] rejects only from the two
    statements that [run] and [step] execute outside the [try] block:
    with an exception thrown by the merge of the caller's own patch
    argument, or with the [TypeError] of [JSON.stringify] on a merged
    context that cannot be serialised, which is then the context the
    graph is left with. With a patch argument whose application cannot
    throw (no patch, a static mapping, a function patch that returns)
    and values that can all be serialised, [run] never rejects: a node
    that throws, an invalid transition, a pointer without a node
    instance and a failing patch returned by a node all end inside
    [step]. After any number of iterations the loop is then either
    still running, every step so far having resolved with [true], or
    [run] has resolved at the first step that resolved with [false],
    and with the context that step left in the graph. *)
Theorem run_contains_engine_errors (fuel : nat) p g w :
  (∀ e g' w', run fuel p g w = Some (Throw e, g', w') →
     (∃ c wa, applyPatch c p wa = (Throw e, w')) ∨
     (e = TypeError ∧ ctx_ok (_context g') = false)) ∧
  (patch_returns p → all_stringify V →
     (run fuel p g w = None ∧ is_Some (run_state fuel p g w)) ∨
     (∃ k gk wk o g' w', k < fuel ∧ run_state k p g w = Some (gk, wk) ∧
        step p gk wk = (o, g', w') ∧ step_value o = Normal false ∧
        run fuel p g w = Some (Normal (_context g'), g', w') ∧
        run_state fuel p g w = None)).
Proof.
  split.
  - intros e g' w'. unfold run.
    destruct (applyPatch (_context g) p w) as [[c0|e0] w0] eqn:Hc.
    + destruct (stringify c0) as [u|e1] eqn:Hs.
      * apply run_loop_rejected_inv.
      * intros [= -> <- <-]. right.
        by apply stringify_throws_TypeError in Hs.
    + intros [= -> -> ->]. left. eauto.
  - intros Hp Hall.
    destruct (applyPatch_returns p (_context g) w Hp) as (c0 & w0 & Hc).
    unfold run, run_state. rewrite Hc.
    rewrite (ctx_ok_all c0 Hall), (stringify_ok c0 (ctx_ok_all c0 Hall)).
    by apply run_loop_settles.
Qed.

(** X9. A transition name that is wired from the active node but has no
    node registered under it passes the check. When the node's patch
    can be logged and merged and the merged context can be logged,
    [step] resolves with [true] and moves the pointer to the name, with
    no node instance. The step after that calls no node and leaves the
    pointer on the name: when the merge of its patch throws it rejects
    with that exception, when the merged context cannot be logged it
    rejects with a [TypeError], and otherwise it ends in the [catch]
    block with a [TypeError]. *)
Lemma dangling_target_halts_next_step p g w cur n c0 w0 (q : option (Patch V W))
    (t : string) w1 m1 w2 :
  _currentNode g = Some cur → node cur = Some n →
  applyPatch (_context g) p w = (Normal c0, w0) → ctx_ok c0 = true →
  n w0 c0 (default [] (_transitions g !! key cur)) =
    (Returned {| context := q; transition := Some t |}, w1) →
  t ≠ EmptyString →
  patch_ok q = true →
  patch_mapping q c0 w1 = (Normal m1, w2) → ctx_ok (spread c0 m1) = true →
  wired g (key cur) t = true → _nodes g !! t = None →
  let g' := set_currentNode {| node := None; key := t |}
              (set_context (spread c0 m1) g) in
  step p g w = (Continue, g', w2) ∧
  current g' = Some t ∧
  ∀ p' wa,
    current (step p' g' wa).1.2 = Some t ∧
    match patch_mapping p' (spread c0 m1) wa with
    | (Throw e, w3) => step p' g' wa = (Rejected e, g', w3)
    | (Normal m2, w3) =>
        step p' g' wa =
          (if ctx_ok (spread (spread c0 m1) m2)
           then Halted TypeError else Rejected TypeError,
           set_context (spread (spread c0 m1) m2) g', w3)
    end.
Proof.
  intros Hcur Hn Hp Hok Hcall Ht Hqok Hq Hok1 Hw Hreg. simpl.
  pose proof (step_invokes p g w cur n c0 w0 Hcur Hn Hp Hok) as Hstep.
  rewrite Hcall in Hstep. split_and!.
  - rewrite Hstep.
    rewrite (step_result_transition cur _ (set_context c0 g) w1 (spread c0 m1) w2 t);
      [| done | by apply applyPatch_mapping_returns | done | done | done].
    change (wired (set_context c0 g) (key cur) t) with (wired g (key cur) t).
    rewrite Hw. simpl. by rewrite Hreg.
  - reflexivity.
  - intros p' wa.
    set (g' := set_currentNode {| node := None; key := t |}
                 (set_context (spread c0 m1) g)).
    assert (match patch_mapping p' (spread c0 m1) wa with
            | (Throw e, w3) => step p' g' wa = (Rejected e, g', w3)
            | (Normal m2, w3) =>
                step p' g' wa =
                  (if ctx_ok (spread (spread c0 m1) m2)
                   then Halted TypeError else Rejected TypeError,
                   set_context (spread (spread c0 m1) m2) g', w3)
            end) as Hnext.
    { destruct (patch_mapping p' (spread c0 m1) wa) as [[m2|e2] w3] eqn:Hm.
      - pose proof (applyPatch_mapping_returns p' _ wa m2 w3 Hm) as Hp'.
        destruct (ctx_ok (spread (spread c0 m1) m2)) eqn:Hok2.
        + by apply (step_no_instance p' g' wa {| node := None; key := t |}).
        + by apply (step_log_throws p' g' wa).
      - pose proof (applyPatch_mapping_throws p' _ wa e2 w3 Hm) as Hp'.
        by apply (step_patch_throws p' g' wa). }
    split; [|done].
    destruct (patch_mapping p' (spread c0 m1) wa) as [[m2|e2] w3];
      by rewrite Hnext.
Qed.

(** C3, as amended. Whenever the active node is called and returns a
    non-empty transition name [t] that is not in the outgoing set wired
    from it, the step halts in the error-terminal state at validation
    time: [step] ends in its [catch] block, resolves with [false], and
    the pointer does not move. When the node's patch was logged and
    merged and the merged context logged, the error is the
    invalid-transition error; otherwise it is the error of the log or
    of the merge. The check reads the transition table and not the
    registry. *)
Theorem invalid_transition_halts p g w cur n c0 w0 (q : option (Patch V W))
    (t : string) w1 :
  _currentNode g = Some cur → node cur = Some n →
  applyPatch (_context g) p w = (Normal c0, w0) → ctx_ok c0 = true →
  n w0 c0 (default [] (_transitions g !! key cur)) =
    (Returned {| context := q; transition := Some t |}, w1) →
  t ≠ EmptyString →
  wired g (key cur) t = false →
  ∃ e c' w', step p g w = (Halted e, set_context c' g, w') ∧
    step_value (Halted e) = Normal false ∧
    current (set_context c' g) = current g ∧
    (∀ c1 w2, patch_ok q = true → applyPatch c0 q w1 = (Normal c1, w2) →
       ctx_ok c1 = true →
       e = Error (invalid_transition_message (key cur) t) ∧ c' = c1 ∧ w' = w2) ∧
    (patch_ok q = false → e = TypeError ∧ c' = c0 ∧ w' = w1) ∧
    (∀ e1 w2, patch_ok q = true → applyPatch c0 q w1 = (Throw e1, w2) →
       e = e1 ∧ c' = c0 ∧ w' = w2) ∧
    (∀ c1 w2, patch_ok q = true → applyPatch c0 q w1 = (Normal c1, w2) →
       ctx_ok c1 = false → e = TypeError ∧ c' = c1 ∧ w' = w2).
Proof.
  intros Hcur Hn Hp Hok Hcall Ht Hw.
  pose proof (step_invokes p g w cur n c0 w0 Hcur Hn Hp Hok) as Hstep.
  rewrite Hcall in Hstep.
  destruct (patch_ok q) eqn:Hqok.
  - destruct (applyPatch c0 q w1) as [[c1|e1] w2] eqn:Hq.
    + destruct (ctx_ok c1) eqn:Hok1.
      * exists (Error (invalid_transition_message (key cur) t)), c1, w2.
        rewrite Hstep.
        rewrite (step_result_transition cur _ (set_context c0 g) w1 c1 w2 t) by done.
        change (wired (set_context c0 g) (key cur) t) with (wired g (key cur) t).
        rewrite Hw. split_and!; try done.
        -- by intros ? ? _ [= <- <-].
        -- intros ? ? _ [= <- <-] ?. congruence.
      * exists TypeError, c1, w2. rewrite Hstep.
        rewrite (step_result_log_throws cur _ (set_context c0 g) w1 c1 w2) by done.
        split_and!; try done.
        -- intros ? ? _ [= <- <-] ?. congruence.
        -- by intros ? ? _ [= <- <-].
    + exists e1, c0, w2. rewrite Hstep.
      rewrite (step_result_patch_throws cur _ (set_context c0 g) w1 e1 w2) by done.
      split_and!; try done.
      by intros ? ? _ [= <- <-].
  - exists TypeError, c0, w1. rewrite Hstep.
    rewrite (step_result_patch_unlogged cur _ (set_context c0 g) w1) by done.
    split_and!; done.
Qed.

(** C4, as amended. In a step in which the active node is called and
    returns a context patch together with a transition name that is not
    wired from it, [step] resolves with [false], the pointer stays
    where it was, and a [run] whose loop has reached this step resolves
    there, with the context the step leaves. What that context is
    depends on the patch. When the patch can be logged and the mapping
    it stands for can be worked out (a static mapping that can be
    serialised, a function patch that returns), the mapping is merged
    before the name is looked at: the context reads the mapping's value
    under every key of the mapping and the value the node was given
    under every other key, and the step ends with the
    invalid-transition error if the merged context can be logged and
    the name is not empty. When the patch cannot be logged, or is a
    function that throws, nothing is merged: the context is the one the
    node was given. *)
Theorem patch_merged_before_validation p g w cur n c0 w0 (q : Patch V W)
    (t : string) w1 :
  _currentNode g = Some cur → node cur = Some n →
  applyPatch (_context g) p w = (Normal c0, w0) → ctx_ok c0 = true →
  n w0 c0 (default [] (_transitions g !! key cur)) =
    (Returned {| context := Some q; transition := Some t |}, w1) →
  wired g (key cur) t = false →
  ∃ o c' w', step p g w = (o, set_context c' g, w') ∧
    step_value o = Normal false ∧
    _currentNode (set_context c' g) = _currentNode g ∧
    (∀ k gi wi fuel, run_state k p gi wi = Some (g, w) → k < fuel →
       run fuel p gi wi = Some (Normal c', set_context c' g, w')) ∧
    (∀ m w2, patch_ok (Some q) = true →
       patch_mapping (Some q) c0 w1 = (Normal m, w2) →
       c' = spread c0 m ∧ w' = w2 ∧
       (∀ (k : string) v, m !! k = Some v → c' !! k = Some v) ∧
       (∀ k : string, m !! k = None → c' !! k = c0 !! k) ∧
       (ctx_ok (spread c0 m) = true → t ≠ EmptyString →
          o = Halted (Error (invalid_transition_message (key cur) t)))) ∧
    (patch_ok (Some q) = false → o = Halted TypeError ∧ c' = c0 ∧ w' = w1) ∧
    (∀ e w2, patch_ok (Some q) = true →
       patch_mapping (Some q) c0 w1 = (Throw e, w2) →
       o = Halted e ∧ c' = c0 ∧ w' = w2).
Proof.
  intros Hcur Hn Hp Hok Hcall Hw.
  pose proof (step_invokes p g w cur n c0 w0 Hcur Hn Hp Hok) as Hstep.
  rewrite Hcall in Hstep.
  assert (∀ o c' w', step p g w = (o, set_context c' g, w') →
    step_value o = Normal false →
    ∀ k gi wi fuel, run_state k p gi wi = Some (g, w) → k < fuel →
      run fuel p gi wi = Some (Normal c', set_context c' g, w')) as Hrun.
  { intros o c' w' Hs Hv k gi wi fuel Hk Hlt.
    by apply (run_stops_at k fuel p gi wi g w o (set_context c' g) w'). }
  destruct (patch_ok (Some q)) eqn:Hqok.
  - destruct (patch_mapping (Some q) c0 w1) as [[m|e] w2] eqn:Hq.
    + pose proof (applyPatch_mapping_returns (Some q) c0 w1 m w2 Hq) as Hq'.
      assert (∃ o, step p g w = (o, set_context (spread c0 m) g, w2) ∧
                step_value o = Normal false ∧
                (ctx_ok (spread c0 m) = true → t ≠ EmptyString →
                   o = Halted (Error (invalid_transition_message (key cur) t))))
        as (o & Ho & Hv & Herr).
      { rewrite Hstep. destruct (ctx_ok (spread c0 m)) eqn:Hok1.
        - destruct (decide (t = EmptyString)) as [->|Ht].
          + exists Done. split_and!; [|done|done].
            by rewrite (step_result_no_transition cur _ (set_context c0 g) w1
                          (spread c0 m) w2); [| | | |right].
          + exists (Halted (Error (invalid_transition_message (key cur) t))).
            split_and!; [|done|done].
            rewrite (step_result_transition cur _ (set_context c0 g) w1
                       (spread c0 m) w2 t) by done.
            change (wired (set_context c0 g) (key cur) t) with (wired g (key cur) t).
            by rewrite Hw.
        - exists (Halted TypeError). split_and!; [|done|done].
          by rewrite (step_result_log_throws cur _ (set_context c0 g) w1
                        (spread c0 m) w2). }
      exists o, (spread c0 m), w2. split_and!; try done.
      * by apply (Hrun o).
      * intros m' w2' _ [= <- <-]. split_and!; try done.
        -- intros k v Hk. by rewrite lookup_spread, Hk.
        -- intros k Hk. by rewrite lookup_spread, Hk.
    + pose proof (applyPatch_mapping_throws (Some q) c0 w1 e w2 Hq) as Hq'.
      exists (Halted e), c0, w2.
      assert (step p g w = (Halted e, set_context c0 g, w2)) as Hs.
      { rewrite Hstep.
        by rewrite (step_result_patch_throws cur _ (set_context c0 g) w1 e w2). }
      split_and!; try done.
      * by apply (Hrun (Halted e)).
      * by intros e' w2' _ [= <- <-].
  - exists (Halted TypeError), c0, w1.
    assert (step p g w = (Halted TypeError, set_context c0 g, w1)) as Hs.
    { rewrite Hstep.
      by rewrite (step_result_patch_unlogged cur _ (set_context c0 g) w1). }
    split_and!; try done.
    by apply (Hrun (Halted TypeError)).
Qed.


(** C9, as amended. On a graph whose start node was never set,
    [step(patch)] calls no node: the world it leaves is the one the
    application of the patch left. When the patch stands for a mapping
    and the merged context can be serialised, [step] merges the
    mapping, does not throw and resolves with [false] from the [try]
    block; [run(patch)] then merges the patch a second time in its one
    step, and resolves with that context when it can be serialised,
    which for a static or an absent patch is the context with the patch
    merged once. When working out the mapping throws, [step] and [run]
    reject with that exception and leave the graph as it was; when the
    merged context cannot be serialised they reject with a [TypeError]
    after the merged context was assigned. *)
Theorem step_before_setStart p g w :
  _currentNode g = None →
  (∀ m w1, patch_mapping p (_context g) w = (Normal m, w1) →
     ctx_ok (spread (_context g) m) = true →
     let c1 := spread (_context g) m in
     step p g w = (Done, set_context c1 g, w1) ∧
     step_value Done = Normal false ∧
     (∀ m2 w2 fuel, patch_mapping p c1 w1 = (Normal m2, w2) →
        ctx_ok (spread c1 m2) = true →
        run (S fuel) p g w =
          Some (Normal (spread c1 m2), set_context (spread c1 m2) g, w2)) ∧
     (∀ m2 w2 fuel, patch_mapping p c1 w1 = (Normal m2, w2) →
        ctx_ok (spread c1 m2) = false →
        run (S fuel) p g w =
          Some (Throw TypeError, set_context (spread c1 m2) g, w2)) ∧
     (∀ e w2 fuel, patch_mapping p c1 w1 = (Throw e, w2) →
        run (S fuel) p g w = Some (Throw e, set_context c1 g, w2))) ∧
  (∀ e w1, patch_mapping p (_context g) w = (Throw e, w1) →
     step p g w = (Rejected e, g, w1) ∧
     ∀ fuel, run fuel p g w = Some (Throw e, g, w1)) ∧
  (∀ m w1, patch_mapping p (_context g) w = (Normal m, w1) →
     ctx_ok (spread (_context g) m) = false →
     step p g w = (Rejected TypeError, set_context (spread (_context g) m) g, w1) ∧
     ∀ fuel, run fuel p g w =
       Some (Throw TypeError, set_context (spread (_context g) m) g, w1)) ∧
  (∀ m fuel, p = Some (Static m) → ctx_ok (spread (_context g) m) = true →
     run (S fuel) p g w =
       Some (Normal (spread (_context g) m), set_context (spread (_context g) m) g, w)) ∧
  (∀ fuel, p = None → ctx_ok (_context g) = true →
     run (S fuel) p g w = Some (Normal (_context g), g, w)).
Proof.
  intros Hcur.
  assert (∀ m w1, patch_mapping p (_context g) w = (Normal m, w1) →
     ctx_ok (spread (_context g) m) = true →
     ∀ m2 w2 fuel, patch_mapping p (spread (_context g) m) w1 = (Normal m2, w2) →
        ctx_ok (spread (spread (_context g) m) m2) = true →
        run (S fuel) p g w =
          Some (Normal (spread (spread (_context g) m) m2),
                set_context (spread (spread (_context g) m) m2) g, w2)) as Hrun.
  { intros m w1 Hm Hok m2 w2 fuel Hm2 Hok2. unfold run.
    rewrite (applyPatch_mapping_returns p _ w m w1 Hm), (stringify_ok _ Hok).
    pose proof (step_unstarted p (set_context (spread (_context g) m) g) w1 _ w2
                  Hcur (applyPatch_mapping_returns p _ w1 m2 w2 Hm2) Hok2) as Hs.
    by rewrite (run_loop_stops fuel p _ _ _ _ _ Hs eq_refl). }
  split_and!.
  - intros m w1 Hm Hok. simpl. split_and!; try done.
    + apply step_unstarted; [done | | done].
      by apply applyPatch_mapping_returns.
    + by apply Hrun.
    + intros m2 w2 fuel Hm2 Hok2. unfold run.
      rewrite (applyPatch_mapping_returns p _ w m w1 Hm), (stringify_ok _ Hok).
      pose proof (step_log_throws p (set_context (spread (_context g) m) g) w1 _ w2
                    (applyPatch_mapping_returns p _ w1 m2 w2 Hm2) Hok2) as Hs.
      by rewrite (run_loop_rejects fuel p _ _ _ _ _ Hs).
    + intros e w2 fuel Hm2. unfold run.
      rewrite (applyPatch_mapping_returns p _ w m w1 Hm), (stringify_ok _ Hok).
      pose proof (step_patch_throws p (set_context (spread (_context g) m) g) w1 e w2
                    (applyPatch_mapping_throws p _ w1 e w2 Hm2)) as Hs.
      by rewrite (run_loop_rejects fuel p _ _ _ _ _ Hs).
  - intros e w1 Hm. split.
    + apply step_patch_throws. by apply applyPatch_mapping_throws.
    + intros fuel. unfold run.
      by rewrite (applyPatch_mapping_throws p _ w e w1 Hm).
  - intros m w1 Hm Hok. split.
    + apply step_log_throws; [|done]. by apply applyPatch_mapping_returns.
    + intros fuel. unfold run.
      by rewrite (applyPatch_mapping_returns p _ w m w1 Hm), (stringify_fails _ Hok).
  - intros m fuel -> Hok.
    rewrite (Hrun m w eq_refl Hok m w fuel eq_refl);
      rewrite spread_twice; done.
  - intros fuel -> Hok.
    rewrite (Hrun ∅ w eq_refl) with (m2 := ∅) (w2 := w) (fuel := fuel);
      rewrite ?spread_empty; try done.
    by rewrite set_context_same.
Qed.

End ExecutionSpec.

(** ** The scenarios of the specification, evaluated *)

Module ScenarioFacts.

Import Scenario.

Open Scope Z_scope.

(** Scenario 1: [A] patches [x], moves to [B]; [B] patches [y] and stops. *)
Example scenario_1 :
  ∃ g', run 3 (Some (Static ∅)) two_nodes_started [] =
          Some (Normal {["x" := 1; "y" := 2]}, g', ["A"; "B"]) ∧
        current g' = Some "B".
Proof. eexists. split; [vm_compute; reflexivity | reflexivity]. Qed.

(** Scenario 2: [A] asks for [Z], which is not wired from [A]. *)
Example scenario_2 :
  step None stray_started [] =
    (Halted (Error "Invalid transition from A > Z"),
     set_context {["x" := 1]} stray_started, ["A"]) ∧
  run 3 None stray_started [] =
    Some (Normal {["x" := 1]}, set_context {["x" := 1]} stray_started, ["A"]).
Proof. split; vm_compute; reflexivity. Qed.

(** Scenario 3: [A]'s [next] throws. *)
Example scenario_3 :
  step (Some (Static {["seed" := 7]})) throwing_started [] =
    (Halted (Error "node failed"),
     set_context {["seed" := 7]} throwing_started, ["A"]) ∧
  run 3 (Some (Static {["seed" := 7]})) throwing_started [] =
    Some (Normal {["seed" := 7]}, set_context {["seed" := 7]} throwing_started, ["A"]) ∧
  current (set_context {["seed" := 7]} throwing_started) = Some "A".
Proof. split_and!; vm_compute; reflexivity. Qed.

(** Scenario 4: in the chain [A -> B -> C], [B] returns nothing. *)
Example scenario_4 :
  run 5 None chain_started [] =
    Some (Normal {["a" := 1]}, set_context {["a" := 1]} chain_at_B, ["A"; "B"]).
Proof. vm_compute. reflexivity. Qed.

(** Scenario 5: two calls of [edge(A,B)] and one of [edge(A,C)]. *)
Example scenario_5 :
  availableTransitions (edge "A" "C" (edge "A" "B" (edge "A" "B" fork))) =
    Normal (Some ["B"; "C"]).
Proof. vm_compute. reflexivity. Qed.

(** An edge to a name without a node: the pointer moves to [Z] and the
    next step halts; [run] resolves with [A]'s patch. *)
Example dangling_run :
  ∃ g', run 3 None dangling_started [] = Some (Normal {["x" := 1]}, g', ["A"]) ∧
        current g' = Some "Z".
Proof. eexists. split; [vm_compute; reflexivity | reflexivity]. Qed.

Lemma step_self_loop (w : T) :
  step None self_loop w = (Continue, self_loop, (w ++ ["A"])%list).
Proof. reflexivity. Qed.

(** A node that always names itself keeps the loop of [run] running:
    [run] neither rejects nor resolves. *)
Lemma run_self_loop_spins (fuel : nat) (w : T) :
  run fuel None self_loop w = None.
Proof.
  change (run fuel None self_loop w) with (run_loop fuel None self_loop w).
  revert w. induction fuel as [|fuel IH]; intros w; [done |].
  rewrite (run_loop_continues fuel None self_loop w _ _ (step_self_loop w)).
  apply IH.
Qed.

(** C1, refuted as stated. [setStart] has succeeded, and [run] called
    with a function patch that throws rejects with that error: the
    merge of the caller's patch, in [run] and at the head of [step],
    is outside the [try] block. *)
Lemma run_rejects_when_patch_throws :
  setStart "A" two_nodes = (Normal tt, two_nodes_started) ∧
  ∀ fuel, run fuel (Some (Computed boom)) two_nodes_started [] =
            Some (Throw (Error "boom"), two_nodes_started, []).
Proof. split; [reflexivity | intros fuel; reflexivity]. Qed.

(** [setStart] has succeeded, and [run] called with the patch [{n: 1n}]
    rejects with the [TypeError] of [JSON.stringify] in its first log
    statement, after the patch was merged and before any node ran. *)
Lemma run_rejects_on_bigint :
  ∀ fuel, run fuel (Some (Static {["n" := BigInt 1]})) Sample.with_bigints [] =
            Some (Throw TypeError,
                  set_context {["n" := BigInt 1]} Sample.with_bigints, []).
Proof. intros fuel. reflexivity. Qed.

(** C4, refuted as stated. Node [A] returns a patch and the name [Z],
    which is not wired from it, and the context [run] resolves with
    does not include the patch. With the static patch [{n: 1n}] the log
    statement that precedes the merge throws on the BigInt, so the
    field [n] is never set; with a function patch that throws, the
    merge itself throws. Both end in the [catch] block before the
    transition is looked at. *)
Lemma node_patch_not_merged :
  (step None Sample.bigint_patch [] =
     (Halted TypeError, Sample.bigint_patch, ["A"]) ∧
   run 3 None Sample.bigint_patch [] =
     Some (Normal ∅, Sample.bigint_patch, ["A"]) ∧
   _context Sample.bigint_patch !! "n" = None) ∧
  (step None Sample.stray_failing_patch [] =
     (Halted (Error "boom"), Sample.stray_failing_patch, ["A"]) ∧
   run 3 None Sample.stray_failing_patch [] =
     Some (Normal ∅, Sample.stray_failing_patch, ["A"])).
Proof. split_and!; vm_compute; reflexivity. Qed.

(** C9, refuted as stated. [setStart] was never called, and [step]
    and [run] reject: with the patch [{n: 1n}] the log statement at the
    head of [step] throws on the BigInt after the merge, and with a
    function patch that throws the merge itself throws. Neither is
    inside the [try] block. *)
Lemma step_before_setStart_rejects :
  (_currentNode (new_Graph jsnumber T) = None ∧
   step (Some (Static {["n" := BigInt 1]})) (new_Graph jsnumber T) [] =
     (Rejected TypeError,
      set_context {["n" := BigInt 1]} (new_Graph jsnumber T), []) ∧
   ∀ fuel, run fuel (Some (Static {["n" := BigInt 1]})) (new_Graph jsnumber T) [] =
     Some (Throw TypeError,
           set_context {["n" := BigInt 1]} (new_Graph jsnumber T), [])) ∧
  (_currentNode empty = None ∧
   step (Some (Computed boom)) empty [] = (Rejected (Error "boom"), empty, []) ∧
   ∀ fuel, run fuel (Some (Computed boom)) empty [] =
     Some (Throw (Error "boom"), empty, [])).
Proof. split_and!; try reflexivity; intros fuel; reflexivity. Qed.

(** C2, evaluated on the code. [run] hands its patch to every [step],
    so the patch is merged again before each node: with the initial
    patch [{x: 0}], the value 1 that node [A] wrote to [x] is
    overwritten before [B] runs, and a counting function patch is
    called three times in a run of two steps. Merging once and
    stepping with no patch keeps [A]'s value and calls the function
    once. *)
Theorem run_reapplies_initial_patch :
  (∃ g', run 3 (Some (Static {["x" := 0]})) two_nodes_started [] =
           Some (Normal {["x" := 0; "y" := 2]}, g', ["A"; "B"])) ∧
  (∃ g', run_merging_once 3 (Some (Static {["x" := 0]})) two_nodes_started [] =
           Some (Normal {["x" := 1; "y" := 2]}, g', ["A"; "B"])) ∧
  (∃ g', run 3 (Some (Computed bump)) two_nodes_started [] =
           Some (Normal {["n" := 3; "x" := 1; "y" := 2]}, g', ["A"; "B"])) ∧
  (∃ g', run_merging_once 3 (Some (Computed bump)) two_nodes_started [] =
           Some (Normal {["n" := 1; "x" := 1; "y" := 2]}, g', ["A"; "B"])).
Proof. split_and!; eexists; vm_compute; reflexivity. Qed.

(** C3, refuted as stated. [Z] is not in the registry, node [A]
    returns it, and because [A -> Z] was wired [step] resolves with
    [true] and the pointer is on [Z]. *)
Lemma unregistered_target_accepted :
  _nodes dangling_started !! "Z" = None ∧
  ∃ g', step None dangling_started [] = (Continue, g', ["A"]) ∧
        step_value Continue = Normal true ∧
        current g' = Some "Z".
Proof. split; [reflexivity |]. eexists. split_and!; reflexivity. Qed.

End ScenarioFacts.

(** ** The theorems at concrete graphs *)

Module Instances.

Import Scenario.

Open Scope Z_scope.

(** [run] with a function patch that throws, and [run] with a static
    patch on the graph whose start node throws. *)
Lemma run_contains_engine_errors_witness :
  ((∃ c wa, applyPatch c (Some (Computed boom)) wa = (Throw (Error "boom"), [])) ∨
   (Error "boom" = TypeError ∧ ctx_ok (_context two_nodes_started) = false)) ∧
  ((run 3 (Some (Static {["seed" := 7]})) throwing_started [] = None ∧
    is_Some (run_state 3 (Some (Static {["seed" := 7]})) throwing_started [])) ∨
   (∃ k gk wk o g' w', (k < 3)%nat ∧
      run_state k (Some (Static {["seed" := 7]})) throwing_started [] = Some (gk, wk) ∧
      step (Some (Static {["seed" := 7]})) gk wk = (o, g', w') ∧
      step_value o = Normal false ∧
      run 3 (Some (Static {["seed" := 7]})) throwing_started [] =
        Some (Normal (_context g'), g', w') ∧
      run_state 3 (Some (Static {["seed" := 7]})) throwing_started [] = None)).
Proof.
  split.
  - apply (proj1 (run_contains_engine_errors 3 (Some (Computed boom))
                    two_nodes_started [])
             (Error "boom") two_nodes_started []).
    reflexivity.
  - apply (proj2 (run_contains_engine_errors 3 (Some (Static {["seed" := 7]}))
                    throwing_started [])).
    + exact I.
    + intros v. reflexivity.
Defined.

(** The name [Z], neither wired from [A] nor registered, halts the step. *)
Lemma invalid_transition_halts_witness :
  ∃ e c' w', step None stray_started [] = (Halted e, set_context c' stray_started, w') ∧
    step_value (Halted e) = Normal false ∧
    current (set_context c' stray_started) = current stray_started ∧
    e = Error (invalid_transition_message "A" "Z").
Proof.
  destruct (invalid_transition_halts None stray_started []
              {| node := Some (emit "A" (Some (Static {["x" := 1]})) (Some "Z"));
                 key := "A" |}
              (emit "A" (Some (Static {["x" := 1]})) (Some "Z"))
              ∅ [] (Some (Static {["x" := 1]})) "Z" ["A"]
              eq_refl eq_refl eq_refl eq_refl eq_refl ltac:(discriminate) eq_refl)
    as (e & c' & w' & Hs & Hv & Hc & He & _).
  exists e, c', w'. split_and!; [exact Hs | exact Hv | exact Hc |].
  apply (He {["x" := 1]} ["A"]); reflexivity.
Defined.

(** Scenario 2 through the theorem. *)
Lemma patch_merged_before_validation_witness :
  ∃ o, step None stray_started [] = (o, set_context {["x" := 1]} stray_started, ["A"]) ∧
    step_value o = Normal false ∧
    _currentNode (set_context {["x" := 1]} stray_started) = _currentNode stray_started ∧
    ({["x" := 1]} : gmap string Z) !! "x" = Some 1 ∧
    o = Halted (Error (invalid_transition_message "A" "Z")) ∧
    run 4 None stray_started [] =
      Some (Normal {["x" := 1]}, set_context {["x" := 1]} stray_started, ["A"]).
Proof.
  destruct (patch_merged_before_validation None stray_started []
              {| node := Some (emit "A" (Some (Static {["x" := 1]})) (Some "Z"));
                 key := "A" |}
              (emit "A" (Some (Static {["x" := 1]})) (Some "Z"))
              ∅ [] (Static {["x" := 1]}) "Z" ["A"]
              eq_refl eq_refl eq_refl eq_refl eq_refl eq_refl)
    as (o & c' & w' & Hs & Hv & Hc & Hrun & Hm & _).
  destruct (Hm {["x" := 1]} ["A"] eq_refl eq_refl) as (Hc' & Hw' & Hk & _ & Herr).
  subst c' w'.
  exists o. split_and!; [exact Hs | exact Hv | exact Hc | | |].
  - apply (Hk "x" 1). reflexivity.
  - apply Herr; [reflexivity | discriminate].
  - apply (Hrun 0%nat stray_started [] 4%nat); [reflexivity | lia].
Defined.

(** A function patch on a context that already has the field. *)
Lemma applyPatch_shallow_merge_witness :
  ∃ C', applyPatch {["n" := 1; "x" := 5]} (Some (Computed bump)) ([] : T) =
          (Normal C', []) ∧
        ∀ k : string,
          C' !! k = match ({["n" := 2]} : gmap string Z) !! k with
                    | Some v => Some v
                    | None => ({["n" := 1; "x" := 5]} : gmap string Z) !! k
                    end.
Proof.
  destruct (applyPatch_shallow_merge ({["n" := 1; "x" := 5]} : gmap string Z) ([] : T))
    as (_ & _ & HF & _).
  apply (HF bump {["n" := 2]} []). reflexivity.
Defined.

(** [setStart] on a name that was never registered and on one that was. *)
Lemma setStart_checks_registry_witness :
  (setStart "Q" two_nodes = (Throw (Error setStart_message), two_nodes) ∧
   current (setStart "Q" two_nodes).2 = current two_nodes) ∧
  ((setStart "A" two_nodes).1 = Normal tt ∧
   _currentNode (setStart "A" two_nodes).2 =
     Some {| node := Some (emit "A" (Some (Static {["x" := 1]})) (Some "B"));
             key := "A" |} ∧
   current (setStart "A" two_nodes).2 = Some "A" ∧
   _context (setStart "A" two_nodes).2 = _context two_nodes ∧
   _transitions (setStart "A" two_nodes).2 = _transitions two_nodes ∧
   _nodes (setStart "A" two_nodes).2 = _nodes two_nodes).
Proof.
  split.
  - apply (proj1 (setStart_checks_registry "Q" two_nodes)). reflexivity.
  - apply (proj2 (setStart_checks_registry "A" two_nodes)
             (emit "A" (Some (Static {["x" := 1]})) (Some "B"))).
    reflexivity.
Defined.



(** [step] and [run] on a graph with nodes and no start node. *)
Lemma step_before_setStart_witness :
  step (Some (Static {["x" := 0]})) two_nodes [] =
    (Done, set_context {["x" := 0]} two_nodes, []) ∧
  run 3 (Some (Static {["x" := 0]})) two_nodes [] =
    Some (Normal {["x" := 0]}, set_context {["x" := 0]} two_nodes, []).
Proof.
  destruct (step_before_setStart (Some (Static {["x" := 0]})) two_nodes [] eq_refl)
    as (Hmerge & _ & _ & Hstatic & _).
  destruct (Hmerge {["x" := 0]} [] eq_refl eq_refl) as (Hs & _).
  split; [exact Hs |].
  apply (Hstatic {["x" := 0]} 2%nat eq_refl eq_refl).
Defined.

(** A current node without edges, and no current node. *)
Lemma availableTransitions_partial_witness :
  availableTransitions fork = Normal None ∧
  availableTransitions empty = Throw TypeError ∧
  availableTransitions two_nodes_started ≠ Normal (Some []).
Proof.
  split_and!.
  - apply (proj1 (availableTransitions_partial fork)
             {| node := Some (silent "A"); key := "A" |});
      reflexivity.
  - apply (proj1 (proj2 (availableTransitions_partial empty))). reflexivity.
  - apply (proj2 (proj2 (availableTransitions_partial two_nodes_started))).
    exact (edge_wf "A" "B" (new_Graph Z T) (@new_Graph_wf Z T)).
Defined.

End Instances.

(** ** Invariants of the engine *)

Section EngineInvariants.

Context {V W : Type} `{!JsonValue V}.
Implicit Types (g : Graph V W) (c : gmap string V) (w : W)
  (p : option (Patch V W)) (cur : CurrentNode V W) (n : Node V W).

(** Every way the [try] block can end after a truthy [res]. *)
Lemma step_result_inv cur (res : RunResult V W) g w o g' w' :
  step_result cur res g w = (o, g', w') →
  (∃ e, o = Halted e ∧ g' = g ∧
     ((patch_ok (context res) = false ∧ e = TypeError ∧ w' = w) ∨
      (patch_ok (context res) = true ∧
       applyPatch (_context g) (context res) w = (Throw e, w')))) ∨
  (∃ c, patch_ok (context res) = true ∧
     applyPatch (_context g) (context res) w = (Normal c, w') ∧
     g' = match o with
          | Continue =>
              set_currentNode
                {| node := _nodes g !! default EmptyString (transition res);
                   key := default EmptyString (transition res) |} (set_context c g)
          | _ => set_context c g
          end ∧
     ((ctx_ok c = false ∧ o = Halted TypeError) ∨
      (ctx_ok c = true ∧
       (transition res = None ∨ transition res = Some EmptyString) ∧ o = Done) ∨
      (ctx_ok c = true ∧
       ∃ t : string, transition res = Some t ∧ t ≠ EmptyString ∧
         wired g (key cur) t = false ∧
         o = Halted (Error (invalid_transition_message (key cur) t))) ∨
      (ctx_ok c = true ∧
       ∃ t : string, transition res = Some t ∧ t ≠ EmptyString ∧
         wired g (key cur) t = true ∧ o = Continue))).
Proof.
  destruct (patch_ok (context res)) eqn:Hqok.
  - destruct (applyPatch (_context g) (context res) w) as [[c|e] w2] eqn:Hq.
    + destruct (ctx_ok c) eqn:Hok.
      * destruct (transition res) as [t|] eqn:Ht.
        -- destruct (decide (t = EmptyString)) as [->|Hne].
           ++ rewrite (step_result_no_transition cur res g w c w2) by auto.
              intros [= <- <- <-]. right. exists c. split_and!; try done.
              right. left. auto.
           ++ rewrite (step_result_transition cur res g w c w2 t) by done.
              destruct (wired g (key cur) t) eqn:Hw; intros [= <- <- <-];
                right; exists c; (split_and!; try done).
              ** right. right. right. split; [done |]. by exists t.
              ** right. right. left. split; [done |]. by exists t.
        -- rewrite (step_result_no_transition cur res g w c w2) by auto.
           intros [= <- <- <-]. right. exists c. split_and!; try done.
           right. left. auto.
      * rewrite (step_result_log_throws cur res g w c w2) by done.
        intros [= <- <- <-]. right. exists c. split_and!; try done. by left.
    + rewrite (step_result_patch_throws cur res g w e w2) by done.
      intros [= <- <- <-]. left. exists e. split_and!; try done. by right.
  - rewrite (step_result_patch_unlogged cur res g w) by done.
    intros [= <- <- <-]. left. exists TypeError. split_and!; try done. by left.
Qed.

(** Every way [step] can end. *)
Lemma step_inv p g w o g' w' :
  step p g w = (o, g', w') →
  (∃ e, applyPatch (_context g) p w = (Throw e, w') ∧ o = Rejected e ∧ g' = g) ∨
  (∃ c0 w0, applyPatch (_context g) p w = (Normal c0, w0) ∧
     ((ctx_ok c0 = false ∧ o = Rejected TypeError ∧ g' = set_context c0 g ∧ w' = w0) ∨
      (ctx_ok c0 = true ∧
       ((_currentNode g = None ∧ o = Done ∧ g' = set_context c0 g ∧ w' = w0) ∨
        (∃ cur, _currentNode g = Some cur ∧ node cur = None ∧
           o = Halted TypeError ∧ g' = set_context c0 g ∧ w' = w0) ∨
        (∃ cur n res w1, _currentNode g = Some cur ∧ node cur = Some n ∧
           n w0 c0 (default [] (_transitions g !! key cur)) = (res, w1) ∧
           match res with
           | Threw e => o = Halted e ∧ g' = set_context c0 g ∧ w' = w1
           | Void => o = Done ∧ g' = set_context c0 g ∧ w' = w1
           | Returned r => step_result cur r (set_context c0 g) w1 = (o, g', w')
           end))))).
Proof.
  destruct (applyPatch (_context g) p w) as [[c0|e0] w0] eqn:Hp.
  - intros Hs. right. exists c0, w0. split; [done |].
    destruct (ctx_ok c0) eqn:Hok.
    + right. split; [done |].
      destruct (_currentNode g) as [cur|] eqn:Hcur.
      * destruct (node cur) as [n|] eqn:Hn.
        -- right. right. rewrite (step_invokes p g w cur n c0 w0) in Hs by done.
           destruct (n w0 c0 _) as [res w1] eqn:Hcall.
           exists cur, n, res, w1. split_and!; try done.
           destruct res; [by injection Hs as <- <- <- | by injection Hs as <- <- <- | done].
        -- right. left. rewrite (step_no_instance p g w cur c0 w0) in Hs by done.
           injection Hs as <- <- <-. eauto 10.
      * left. rewrite (step_unstarted p g w c0 w0) in Hs by done.
        by injection Hs as <- <- <-.
    + left. rewrite (step_log_throws p g w c0 w0) in Hs by done.
      by injection Hs as <- <- <-.
  - rewrite (step_patch_throws p g w e0 w0) by done.
    intros [= <- <- <-]. left. eauto.
Qed.

(** The graph a step leaves differs from the one it found in the
    context and the pointer only. *)
Lemma step_result_frame cur (res : RunResult V W) g w o g' w' :
  step_result cur res g w = (o, g', w') →
  ∃ c, (g' = set_context c g ∧ o ≠ Continue ∨
        ∃ t : string, o = Continue ∧ wired g (key cur) t = true ∧ t ≠ EmptyString ∧
          transition res = Some t ∧
          g' = set_currentNode {| node := _nodes g !! t; key := t |} (set_context c g)) ∧
       (c = _context g ∨ applyPatch (_context g) (context res) w = (Normal c, w')).
Proof.
  intros Hs. apply step_result_inv in Hs
    as [(e & -> & -> & _) | (c & _ & Hq & Hg & Hcase)].
  - exists (_context g). split; [|by left]. left. by rewrite set_context_same.
  - exists c. split; [|by right].
    destruct Hcase as [(_ & ->) | [(_ & _ & ->) | [(_ & t & _ & _ & _ & ->) |
      (_ & t & Ht & Hne & Hw & ->)]]]; try (left; done).
    right. exists t. rewrite Ht in Hg. simpl in Hg. done.
Qed.

Lemma step_frame p g w o g' w' :
  step p g w = (o, g', w') →
  ∃ c, (g' = set_context c g ∧ o ≠ Continue ∨
        ∃ cur (t : string), _currentNode g = Some cur ∧ is_Some (node cur) ∧
          o = Continue ∧ wired g (key cur) t = true ∧ t ≠ EmptyString ∧
          g' = set_currentNode {| node := _nodes g !! t; key := t |} (set_context c g)).
Proof.
  intros Hs. apply step_inv in Hs as [(e & _ & -> & ->) | (c0 & w0 & _ & Hcase)].
  - exists (_context g). left. by rewrite set_context_same.
  - destruct Hcase as [(_ & -> & -> & _) | (_ & [(_ & -> & -> & _) |
      [(cur & _ & _ & -> & -> & _) | (cur & n & res & w1 & Hcur & Hn & _ & Hres)]])].
    + exists c0. by left.
    + exists c0. by left.
    + exists c0. by left.
    + destruct res as [e| |r].
      * destruct Hres as (-> & -> & _). exists c0. by left.
      * destruct Hres as (-> & -> & _). exists c0. by left.
      * apply step_result_frame in Hres as (c & [[-> Ho] | (t & -> & Hw & Ht & _ & ->)] & _).
        -- exists c. by left.
        -- exists c. right. exists cur, t. rewrite Hn. split_and!; eauto.
Qed.

Lemma applyPatch_keeps_keys c p w c' w' (k : string) :
  applyPatch c p w = (Normal c', w') → is_Some (c !! k) → is_Some (c' !! k).
Proof.
  intros Hp [v Hv].
  assert (∀ m, is_Some (spread c m !! k)) as Hm.
  { intros m. rewrite lookup_spread. destruct (m !! k); eauto. }
  destruct p as [[m|f]|]; simpl in Hp.
  - injection Hp as <- _. apply Hm.
  - destruct (f w c) as [[m|e] w2]; [|done]. injection Hp as <- _. apply Hm.
  - injection Hp as <- _. eauto.
Qed.



Lemma step_keeps_tables p g w o g' w' :
  step p g w = (o, g', w') →
  _transitions g' = _transitions g ∧ _nodes g' = _nodes g.
Proof.
  intros Hs. apply step_frame in Hs
    as (c & [[-> _] | (cur & t & _ & _ & _ & _ & _ & ->)]); done.
Qed.

(** What the loop of [run] leaves follows from what each step leaves. *)
Lemma run_loop_invariant (P : Graph V W → Prop) fuel p g w r g' w' :
  (∀ g1 w1 o g2 w2, P g1 → step p g1 w1 = (o, g2, w2) → P g2) →
  P g → run_loop fuel p g w = Some (r, g', w') → P g'.
Proof.
  intros Hstep. revert g w. induction fuel as [|fuel IH]; intros g w Hg; simpl; [done |].
  destruct (step p g w) as [[o g1] w1] eqn:Hs.
  pose proof (Hstep _ _ _ _ _ Hg Hs) as Hg1.
  destruct o; simpl.
  - by apply IH.
  - by intros [= <- <- <-].
  - by intros [= <- <- <-].
  - by intros [= <- <- <-].
Qed.

Lemma run_invariant (P : Graph V W → Prop) fuel p g w r g' w' :
  (∀ c g1, P g1 → (∀ k : string, is_Some (_context g1 !! k) → is_Some (c !! k)) →
           P (set_context c g1)) →
  (∀ g1 w1 o g2 w2, P g1 → step p g1 w1 = (o, g2, w2) → P g2) →
  P g → run fuel p g w = Some (r, g', w') → P g'.
Proof.
  intros Hctx Hstep Hg. unfold run.
  destruct (applyPatch (_context g) p w) as [[c0|e0] w0] eqn:Hp.
  - assert (P (set_context c0 g)) as Hg0.
    { apply Hctx; [done |].
      intros k. by apply (applyPatch_keeps_keys _ _ _ _ _ k Hp). }
    destruct (stringify c0) as [u|e1].
    + by apply run_loop_invariant.
    + by intros [= <- <- <-].
  - by intros [= <- <- <-].
Qed.

End EngineInvariants.

Section EngineFacts.

Context {V W : Type} `{!JsonValue V}.
Implicit Types (g : Graph V W) (c : gmap string V) (w : W)
  (p : option (Patch V W)) (cur : CurrentNode V W) (n : Node V W).




(** X2. Execution never writes the transition table or the registry:
    [step], however it ends, and [run], however it settles, leave
    [_transitions] and [_nodes] as they were. *)
Theorem tables_read_only_during_execution p g w :
  (_transitions (step p g w).1.2 = _transitions g ∧
   _nodes (step p g w).1.2 = _nodes g) ∧
  (∀ fuel r g' w', run fuel p g w = Some (r, g', w') →
     _transitions g' = _transitions g ∧ _nodes g' = _nodes g).
Proof.
  split.
  - destruct (step p g w) as [[o g'] w'] eqn:Hs. simpl.
    by apply (step_keeps_tables p g w o g' w').
  - intros fuel r g' w'.
    apply (run_invariant (λ g1, _transitions g1 = _transitions g ∧ _nodes g1 = _nodes g));
      try done.
    intros g1 w1 o g2 w2 [Ht Hn] Hs.
    destruct (step_keeps_tables p g1 w1 o g2 w2 Hs) as [-> ->]. done.
Qed.

(** X3. The current pointer moves only in a step that resolves with
    [true]. A step that resolves with [false] or rejects leaves it where
    it was; a pointer that is defined stays defined through every step
    and through [run]; and on a graph without a start node no step
    resolves with [true] and [run] leaves the pointer undefined. *)
Theorem pointer_moves_only_on_true p g w :
  (∀ o g' w', step p g w = (o, g', w') →
     (o ≠ Continue → _currentNode g' = _currentNode g) ∧
     (is_Some (_currentNode g) → is_Some (_currentNode g')) ∧
     (_currentNode g = None → o ≠ Continue)) ∧
  (∀ fuel r g' w', run fuel p g w = Some (r, g', w') →
     (is_Some (_currentNode g) → is_Some (_currentNode g')) ∧
     (_currentNode g = None → _currentNode g' = None)).
Proof.
  assert (∀ g1 w1 o g2 w2, step p g1 w1 = (o, g2, w2) →
            (o ≠ Continue → _currentNode g2 = _currentNode g1) ∧
            (is_Some (_currentNode g1) → is_Some (_currentNode g2)) ∧
            (_currentNode g1 = None → o ≠ Continue)) as Hstep.
  { intros g1 w1 o g2 w2 Hs. split_and!.
    - by apply (step_keeps_pointer p g1 w1 o g2 w2).
    - intros Hsome. apply step_frame in Hs
        as (c & [[-> _] | (cur & t & _ & _ & _ & _ & _ & ->)]); [done |].
      by eexists.
    - intros Hnone ->. apply step_frame in Hs
        as (c & [[_ Hne] | (cur & t & Hcur & _)]); [done | congruence]. }
  split; [apply Hstep |].
  intros fuel r g' w' Hrun. split.
  - intros Hsome.
    apply (run_invariant (λ g1, is_Some (_currentNode g1)) fuel p g w r g' w');
      try done.
    intros g1 w1 o g2 w2 Hg1 Hs. by apply (Hstep g1 w1 o g2 w2 Hs).
  - intros Hnone.
    apply (run_invariant (λ g1, _currentNode g1 = None) fuel p g w r g' w');
      try done.
    intros g1 w1 o g2 w2 Hg1 Hs.
    destruct (Hstep g1 w1 o g2 w2 Hs) as (Hkeep & _ & Hno).
    rewrite Hkeep; [done |]. by apply Hno.
Qed.

(** X4. Every move of the pointer follows a wired edge: when [step]
    resolves with [true], the node it left was defined with a node
    instance, the new key is a non-empty name in the outgoing set of the
    key it left, and the new node instance is whatever the registry holds
    under that name. *)
Theorem continue_follows_edge p g w g' w' :
  step p g w = (Continue, g', w') →
  ∃ cur (t : string) s,
    _currentNode g = Some cur ∧ is_Some (node cur) ∧
    _transitions g !! key cur = Some s ∧ t ∈ s ∧ t ≠ EmptyString ∧
    _currentNode g' = Some {| node := _nodes g !! t; key := t |}.
Proof.
  intros Hs. apply step_frame in Hs
    as (c & [[_ Hne] | (cur & t & Hcur & Hn & _ & Hw & Hne & ->)]); [done |].
  unfold wired in Hw.
  destruct (_transitions g !! key cur) as [s|] eqn:Hts; [|done]. simpl in Hw.
  exists cur, t, s. split_and!; try done.
  by apply StrSetFacts.has_true.
Qed.

(** X5. A transition to a wired and registered name moves the pointer
    to the registered node. When the active node is called and returns
    a non-empty name that is wired from it and registered, its patch
    can be logged and stands for a mapping, and the merged context can
    be logged, [step] resolves with [true] and leaves the graph that
    [setStart] on that name would leave on the graph with the merged
    context. *)
Theorem valid_transition_advances p g w cur n c0 w0 (q : option (Patch V W))
    (t : string) w1 m w2 n' :
  _currentNode g = Some cur → node cur = Some n →
  applyPatch (_context g) p w = (Normal c0, w0) → ctx_ok c0 = true →
  n w0 c0 (default [] (_transitions g !! key cur)) =
    (Returned {| context := q; transition := Some t |}, w1) →
  patch_ok q = true →
  patch_mapping q c0 w1 = (Normal m, w2) → ctx_ok (spread c0 m) = true →
  t ≠ EmptyString → wired g (key cur) t = true → _nodes g !! t = Some n' →
  let c1 := spread c0 m in
  step p g w = (Continue, (setStart t (set_context c1 g)).2, w2) ∧
  (setStart t (set_context c1 g)).1 = Normal tt ∧
  _currentNode (setStart t (set_context c1 g)).2 = Some {| node := Some n'; key := t |} ∧
  _context (setStart t (set_context c1 g)).2 = c1.
Proof.
  intros Hcur Hn Hp Hok Hcall Hqok Hq Hok1 Ht Hw Hreg. simpl.
  rewrite (step_returned p g w cur n c0 w0 q (Some t) w1 Hcur Hn Hp Hok Hcall).
  rewrite Hqok, Hq, Hok1, Hw.
  destruct (decide (t = EmptyString)) as [?|_]; [done |].
  unfold setStart. simpl. rewrite Hreg. done.
Qed.


(** X7. When the function patch a node returns throws, nothing of the
    node's result is committed: [step] ends in its [catch] block with
    the patch's error, the context is the one the node was given, and
    the pointer stays, also when the returned transition is wired and
    registered. A [run] whose loop has reached this step resolves with
    that context. *)
Theorem failing_node_patch_commits_nothing p g w cur n c0 w0
    (f : PatchFn V W) (tr : option string) w1 e w2 :
  _currentNode g = Some cur → node cur = Some n →
  applyPatch (_context g) p w = (Normal c0, w0) → ctx_ok c0 = true →
  n w0 c0 (default [] (_transitions g !! key cur)) =
    (Returned {| context := Some (Computed f); transition := tr |}, w1) →
  f w1 c0 = (Throw e, w2) →
  step p g w = (Halted e, set_context c0 g, w2) ∧
  (∀ k gi wi fuel, run_state k p gi wi = Some (g, w) → k < fuel →
     run fuel p gi wi = Some (Normal c0, set_context c0 g, w2)).
Proof.
  intros Hcur Hn Hp Hok Hcall Hf.
  assert (step p g w = (Halted e, set_context c0 g, w2)) as Hstep.
  { rewrite (step_returned p g w cur n c0 w0 _ tr w1 Hcur Hn Hp Hok Hcall).
    simpl. by rewrite Hf. }
  split; [done |].
  intros k gi wi fuel Hk Hlt.
  by apply (run_stops_at k fuel p gi wi g w (Halted e) (set_context c0 g) w2).
Qed.

(** X8. The empty string is no transition. When the active node is
    called and returns the empty string as its transition, [step] does
    not look at the transition table: also when an edge to the empty
    name is wired and a node is registered under it, [step] resolves
    with [false], the pointer stays, that node is not called, and a
    [run] whose loop has reached this step resolves there. When the
    node's patch can be logged and stands for a mapping, the mapping is
    merged, and [step] returns from the [try] block if the merged
    context can be logged; when the patch cannot be logged or throws,
    nothing is merged and [step] ends in the [catch] block. *)
Theorem empty_transition_terminates p g w cur n c0 w0 (q : option (Patch V W)) w1 :
  _currentNode g = Some cur → node cur = Some n →
  applyPatch (_context g) p w = (Normal c0, w0) → ctx_ok c0 = true →
  n w0 c0 (default [] (_transitions g !! key cur)) =
    (Returned {| context := q; transition := Some EmptyString |}, w1) →
  ∃ o c' w', step p g w = (o, set_context c' g, w') ∧
    step_value o = Normal false ∧
    _currentNode (set_context c' g) = _currentNode g ∧
    (∀ k gi wi fuel, run_state k p gi wi = Some (g, w) → k < fuel →
       run fuel p gi wi = Some (Normal c', set_context c' g, w')) ∧
    (∀ m w2, patch_ok q = true → patch_mapping q c0 w1 = (Normal m, w2) →
       c' = spread c0 m ∧ w' = w2 ∧
       o = if ctx_ok (spread c0 m) then Done else Halted TypeError) ∧
    (patch_ok q = false → o = Halted TypeError ∧ c' = c0 ∧ w' = w1) ∧
    (∀ e w2, patch_ok q = true → patch_mapping q c0 w1 = (Throw e, w2) →
       o = Halted e ∧ c' = c0 ∧ w' = w2).
Proof.
  intros Hcur Hn Hp Hok Hcall.
  pose proof (step_returned p g w cur n c0 w0 q (Some EmptyString) w1
                Hcur Hn Hp Hok Hcall) as Hstep.
  assert (∀ o c' w', step p g w = (o, set_context c' g, w') →
    step_value o = Normal false →
    ∀ k gi wi fuel, run_state k p gi wi = Some (g, w) → k < fuel →
      run fuel p gi wi = Some (Normal c', set_context c' g, w')) as Hrun.
  { intros o c' w' Hs Hv k gi wi fuel Hk Hlt.
    by apply (run_stops_at k fuel p gi wi g w o (set_context c' g) w'). }
  destruct (patch_ok q) eqn:Hqok.
  - destruct (patch_mapping q c0 w1) as [[m|e] w2] eqn:Hq.
    + exists (if ctx_ok (spread c0 m) then Done else Halted TypeError),
        (spread c0 m), w2.
      assert (step p g w =
                (if ctx_ok (spread c0 m) then Done else Halted TypeError,
                 set_context (spread c0 m) g, w2)) as Hs.
      { rewrite Hstep. by destruct (ctx_ok (spread c0 m)). }
      assert (step_value (if ctx_ok (spread c0 m) then Done else Halted TypeError)
                = @Normal bool false) as Hv
        by (by destruct (ctx_ok (spread c0 m))).
      split_and!; try done.
      * by apply (Hrun _ _ _ Hs).
      * by intros m' w2' _ [= <- <-].
    + exists (Halted e), c0, w2. split_and!; try done.
      * by apply (Hrun (Halted e)).
      * by intros e' w2' _ [= <- <-].
  - exists (Halted TypeError), c0, w1. split_and!; try done.
    by apply (Hrun (Halted TypeError)).
Qed.

End EngineFacts.

Section RegistryFacts.

Context {V W : Type} `{!JsonValue V}.
Implicit Types (g : Graph V W) (c : gmap string V) (w : W)
  (p : option (Patch V W)) (cur : CurrentNode V W) (n : Node V W).

Lemma step_result_other_registry cur (res : RunResult V W) g w
    (N : gmap string (Node V W)) :
  (step_result cur res (set_nodes N g) w).1.1 = (step_result cur res g w).1.1 ∧
  (step_result cur res (set_nodes N g) w).2 = (step_result cur res g w).2 ∧
  _context (step_result cur res (set_nodes N g) w).1.2 =
    _context (step_result cur res g w).1.2 ∧
  current (step_result cur res (set_nodes N g) w).1.2 =
    current (step_result cur res g w).1.2.
Proof.
  unfold step_result. simpl.
  destruct (patch_ok (context res)); [|done].
  destruct (match context res with
            | None => _ | Some patch => _ end) as [[c|e] w2]; [|done].
  destruct (stringify c) as [u|e2]; [|done].
  destruct (transition res) as [[|a t]|]; [done | | done].
  change (wired (set_context c (set_nodes N g)) (key cur) (String a t))
    with (wired (set_context c g) (key cur) (String a t)).
  by destruct (wired _ _ _).
Qed.

Lemma step_other_registry p g w (N : gmap string (Node V W)) :
  (step p (set_nodes N g) w).1.1 = (step p g w).1.1 ∧
  (step p (set_nodes N g) w).2 = (step p g w).2 ∧
  _context (step p (set_nodes N g) w).1.2 = _context (step p g w).1.2 ∧
  current (step p (set_nodes N g) w).1.2 = current (step p g w).1.2.
Proof.
  split_and!.
  all: unfold step, availableTransitions; simpl;
    destruct (applyPatch (_context g) p w) as [[c0|e0] w0]; [|done];
    simpl; destruct (stringify c0) as [u|e1]; [|done];
    destruct (_currentNode g) as [cur|]; [|done];
    destruct (node cur) as [n|]; [|done];
    destruct (n w0 c0 _) as [[e1| |res] w1]; [done | done |];
    apply (step_result_other_registry cur res (set_context c0 g) w1 N).
Qed.

(** X10. The node that runs is the instance the pointer holds, not what
    the registry holds under its name: registering another node with
    [node], also under the current name, after the pointer was set
    changes neither how the next [step] settles, nor the context and
    the world it leaves, nor the key the pointer ends on. *)
Theorem running_instance_is_the_pointers p g w (k : string) (n' : Node V W) :
  (step p (add_node k n' g) w).1.1 = (step p g w).1.1 ∧
  (step p (add_node k n' g) w).2 = (step p g w).2 ∧
  _context (step p (add_node k n' g) w).1.2 = _context (step p g w).1.2 ∧
  current (step p (add_node k n' g) w).1.2 = current (step p g w).1.2.
Proof. apply step_other_registry. Qed.

(** X11. Registration followed by [setStart] always succeeds and starts
    the node registered last: [node(k, n)] after [node(k, n0)] leaves the
    graph that [node(k, n)] alone leaves, [setStart(k)] then returns
    normally with the pointer on [n], and whether [setStart] accepts
    another name is not changed by registering [k]. *)
Theorem register_then_start (k : string) n n0 g :
  add_node k n (add_node k n0 g) = add_node k n g ∧
  setStart k (add_node k n g) =
    (Normal tt, set_currentNode {| node := Some n; key := k |} (add_node k n g)) ∧
  (∀ k' : string, k' ≠ k →
     (setStart k' (add_node k n g)).1 = (setStart k' g).1).
Proof.
  split_and!.
  - unfold add_node, set_nodes. simpl. by rewrite insert_insert_eq.
  - unfold setStart, add_node. simpl. by rewrite lookup_insert_eq.
  - intros k' Hne. unfold setStart, add_node. simpl.
    rewrite lookup_insert_ne by done. by destruct (_nodes g !! k').
Qed.

(** X12. A transition [l' -> r'] is accepted after [edge(l, r)] exactly
    when it was accepted before or is the edge just added; so the order
    in which edges are registered does not change which transitions are
    accepted. *)
Theorem wired_after_edge (l r l' r' : string) g :
  wired (edge l r g) l' r' =
    wired g l' r' || (bool_decide (l = l') && bool_decide (r = r')) ∧
  (∀ a b : string, wired (edge a b (edge l r g)) l' r' = wired (edge l r (edge a b g)) l' r').
Proof.
  assert (∀ (l r l' r' : string) g,
    wired (edge l r g) l' r' =
      wired g l' r' || (bool_decide (l = l') && bool_decide (r = r'))) as H.
  { clear. intros l r l' r' g. unfold wired. rewrite edge_table.
    destruct (decide (l = l')) as [->|Hne].
    - rewrite lookup_insert_eq, (bool_decide_eq_true_2 (l' = l')) by done. simpl.
      apply eq_true_iff_eq. rewrite orb_true_iff, StrSetFacts.has_true,
        StrSetFacts.elem_of_add, bool_decide_eq_true.
      destruct (_transitions g !! l') as [s|]; simpl.
      + rewrite StrSetFacts.has_true. split; intros [?|?]; subst; auto.
      + rewrite elem_of_nil. split; intros [?|?]; subst; auto; done.
    - rewrite lookup_insert_ne, (bool_decide_eq_false_2 (l = l')) by done.
      simpl. by rewrite orb_false_r. }
  split; [apply H |].
  intros a b. rewrite !H.
  destruct (wired g l' r'), (bool_decide (l = l')), (bool_decide (r = r')),
    (bool_decide (a = l')), (bool_decide (b = r')); done.
Qed.

(** X13. Outgoing sets stay sets. In a graph built from the empty graph
    with [edge], [node] and [setStart], and after any [step], every entry
    of the transition table is non-empty and free of duplicates; so the
    array of names a node is given never names a transition twice. *)
Theorem outgoing_sets_stay_sets g :
  table_wf (new_Graph V W) ∧
  (table_wf g →
     (∀ l r : string, table_wf (edge l r g)) ∧
     (∀ (k : string) n, table_wf (add_node k n g)) ∧
     (∀ k : string, table_wf (setStart k g).2) ∧
     (∀ p w, table_wf (step p g w).1.2) ∧
     (∀ k : string, NoDup (default [] (_transitions g !! k)))).
Proof.
  split; [apply new_Graph_wf |]. intros Hwf. split_and!.
  - intros l r. by apply edge_wf.
  - intros k n. exact Hwf.
  - intros k. unfold setStart. by destruct (_nodes g !! k).
  - intros p w. destruct (step p g w) as [[o g'] w'] eqn:Hs. simpl.
    destruct (step_keeps_tables p g w o g' w' Hs) as [Ht _].
    intros k s. rewrite Ht. apply Hwf.
  - intros k. destruct (_transitions g !! k) as [s|] eqn:Hs; simpl.
    + by destruct (Hwf k s Hs).
    + apply NoDup_nil_2.
Qed.

(** X14. [step] rejects exactly from the two statements before its
    [try] block. It rejects with the exception of the merge of the
    patch it was called with, and the graph is then left as it was; or,
    when the merge returned a context that cannot be serialised, with
    the [TypeError] of the log statement, and then the merged context
    has replaced the old one while the pointer and the tables are
    untouched. In no other case does [step] reject. *)
Theorem step_rejects_iff_head_throws p g w e :
  ((step p g w).1.1 = Rejected e ↔
     (applyPatch (_context g) p w).1 = Throw e ∨
     (e = TypeError ∧ ∃ c0, (applyPatch (_context g) p w).1 = Normal c0 ∧
        ctx_ok c0 = false)) ∧
  ((applyPatch (_context g) p w).1 = Throw e →
     (step p g w).1.2 = g ∧ (step p g w).2 = (applyPatch (_context g) p w).2) ∧
  (∀ c0, (applyPatch (_context g) p w).1 = Normal c0 → ctx_ok c0 = false →
     (step p g w).1.2 = set_context c0 g ∧
     (step p g w).2 = (applyPatch (_context g) p w).2).
Proof.
  split_and!; [split |..].
  - destruct (step p g w) as [[o g'] w'] eqn:Hs. simpl. intros ->.
    apply step_rejected_inv in Hs as [[-> _] | (c0 & -> & Hok & -> & _)].
    + by left.
    + right. split; [done |]. by exists c0.
  - destruct (applyPatch (_context g) p w) as [[c0|e0] w0] eqn:Hp; simpl.
    + intros [[=] | (-> & c & [= <-] & Hok)].
      by rewrite (step_log_throws p g w c0 w0).
    + intros [[= ->] | (_ & c & [=] & _)].
      by rewrite (step_patch_throws p g w e w0).
  - destruct (applyPatch (_context g) p w) as [[c0|e0] w0] eqn:Hp; simpl; [done |].
    intros [= ->]. by rewrite (step_patch_throws p g w e w0).
  - intros c0. destruct (applyPatch (_context g) p w) as [[c|e0] w0] eqn:Hp; simpl;
      [|done].
    intros [= ->] Hok. by rewrite (step_log_throws p g w c0 w0).
Qed.

(** X15. The engine has no cycle detection and no step limit. When the
    current node is registered under its own key, that key is wired to
    itself, the node always returns that key with no patch, and every
    value can be serialised, every step resolves with [true] and [run],
    called with a patch that cannot throw, never settles. *)
Theorem self_transition_never_settles p g w n (k : string) :
  _currentNode g = Some {| node := Some n; key := k |} →
  _nodes g !! k = Some n → wired g k k = true → k ≠ EmptyString →
  (∀ w0 c0 ts, ∃ w1,
     n w0 c0 ts = (Returned {| context := None; transition := Some k |}, w1)) →
  patch_returns p → all_stringify V →
  ∀ fuel, run fuel p g w = None.
Proof.
  intros Hcur Hreg Hw Hk Hn Hp Hall fuel.
  assert (∀ fuel g1 w1,
            _currentNode g1 = Some {| node := Some n; key := k |} →
            _nodes g1 = _nodes g → _transitions g1 = _transitions g →
            run_loop fuel p g1 w1 = None) as Hloop.
  { clear fuel. induction fuel as [|fuel IH]; intros g1 w1 Hc1 Hn1 Ht1; [done |].
    destruct (applyPatch_returns p (_context g1) w1 Hp) as (c0 & w0 & Hp1).
    destruct (Hn w0 c0 (default [] (_transitions g1 !! k))) as (w2 & Hcall).
    assert (step p g1 w1 =
              (Continue,
               set_currentNode {| node := Some n; key := k |} (set_context c0 g1), w2))
      as Hs.
    { rewrite (step_returned p g1 w1 _ n c0 w0 None (Some k) w2
                 Hc1 eq_refl Hp1 (ctx_ok_all c0 Hall) Hcall).
      simpl. rewrite spread_empty, (ctx_ok_all c0 Hall).
      destruct (decide (k = EmptyString)) as [?|_]; [done |].
      unfold wired in *. rewrite Ht1, Hw. by rewrite Hn1, Hreg. }
    rewrite (run_loop_continues fuel p g1 w1 _ _ Hs).
    by apply IH. }
  unfold run.
  destruct (applyPatch_returns p (_context g) w Hp) as (c0 & w0 & ->).
  rewrite (stringify_ok c0 (ctx_ok_all c0 Hall)).
  by apply Hloop.
Qed.

End RegistryFacts.

(** ** Strings of the example application *)

Section JsStringFacts.

Context {A : Type} `{EqDecision A}.
Implicit Types (s t c : list A) (is_ws : A → bool).
Local Open Scope list_scope.
Local Open Scope nat_scope.

Lemma piece_of_refl s : piece_of s s.
Proof. exists [], []. by rewrite app_nil_r. Qed.

Lemma piece_of_nil s : piece_of s [].
Proof. by exists [], s. Qed.

Lemma piece_of_trans s t c : piece_of s t → piece_of t c → piece_of s c.
Proof.
  intros (b1 & a1 & ->) (b2 & a2 & ->).
  exists (b1 ++ b2), (a2 ++ a1). by rewrite <- !app_assoc.
Qed.

Lemma piece_of_length s c : piece_of s c → length c ≤ length s.
Proof. intros (b & a & ->). rewrite !length_app. lia. Qed.

Lemma piece_of_reverse s c : piece_of (reverse s) c → piece_of s (reverse c).
Proof.
  intros (b & a & Hs). exists (reverse a), (reverse b).
  rewrite <- (reverse_involutive s), Hs, !reverse_app. by rewrite <- app_assoc.
Qed.

Lemma take_drop_piece (n m : nat) s : piece_of s (take n (drop m s)).
Proof.
  exists (take m s), (drop n (drop m s)). by rewrite !take_drop.
Qed.

Lemma slice_piece s (a b : Z) : piece_of s (JsString.slice s a b).
Proof.
  unfold JsString.slice. cbv zeta.
  match goal with |- piece_of _ (if ?d then _ else _) => destruct d end;
    [apply take_drop_piece | apply piece_of_nil].
Qed.

Lemma slice_from_0 s (b : Z) :
  (0 ≤ b)%Z → JsString.slice s 0 b = take (Z.to_nat b) s.
Proof.
  intros Hb. unfold JsString.slice. cbv zeta.
  destruct (decide (0 < 0)%Z) as [?|_]; [lia |].
  destruct (decide (b < 0)%Z) as [?|_]; [lia |].
  rewrite (Z.min_l 0) by lia. rewrite Z.sub_0_r.
  change (Z.to_nat 0) with 0%nat. rewrite drop_0.
  destruct (decide (0 < Z.min b (Z.of_nat (length s)))%Z) as [Hlt|Hge].
  - destruct (decide (b ≤ Z.of_nat (length s))%Z) as [Hle|Hgt].
    + by rewrite Z.min_l by lia.
    + rewrite Z.min_r by lia. rewrite Nat2Z.id.
      rewrite (take_ge s (length s)) by lia.
      by rewrite (take_ge s (Z.to_nat b)) by lia.
  - destruct (decide (b = 0%Z)) as [->|Hb0]; [done |].
    destruct s as [|x s]; [by rewrite take_nil |].
    simpl in Hge. lia.
Qed.

Lemma length_slice_le s (a b : Z) :
  (0 ≤ a)%Z → (0 ≤ b)%Z →
  (Z.of_nat (length (JsString.slice s a b)) ≤ Z.max 0 (b - a))%Z.
Proof.
  intros Ha Hb. unfold JsString.slice. cbv zeta.
  destruct (decide (a < 0)%Z) as [?|_]; [lia |].
  destruct (decide (b < 0)%Z) as [?|_]; [lia |].
  destruct (decide (_ < _)%Z); simpl; [|lia].
  rewrite length_take, length_drop. lia.
Qed.

Lemma indexOf_ge (x : A) s : (-1 ≤ JsString.indexOf x s)%Z.
Proof.
  induction s as [|y s IH]; simpl; [lia |].
  case_decide; [lia |]. case_decide; lia.
Qed.

Lemma trimStart_piece is_ws s : piece_of s (JsString.trimStart is_ws s).
Proof.
  induction s as [|x s IH]; simpl; [apply piece_of_nil |].
  destruct (is_ws x); [|apply piece_of_refl].
  destruct IH as (b & a & Hs). exists (x :: b), a. simpl. by rewrite <- Hs.
Qed.

Lemma trimStart_suffix is_ws s :
  ∃ b, s = b ++ JsString.trimStart is_ws s.
Proof.
  induction s as [|x s IH]; simpl; [by exists [] |].
  destruct (is_ws x); [|by exists []].
  destruct IH as (b & Hs). exists (x :: b). simpl. by rewrite <- Hs.
Qed.

Lemma trimStart_head is_ws s x :
  head (JsString.trimStart is_ws s) = Some x → is_ws x = false.
Proof.
  induction s as [|y s IH]; simpl; [done |].
  destruct (is_ws y) eqn:Hy; [done |]. simpl. by intros [= <-].
Qed.

Lemma trim_piece is_ws s : piece_of s (JsString.trim is_ws s).
Proof.
  unfold JsString.trim.
  apply (piece_of_trans _ (JsString.trimStart is_ws s)); [apply trimStart_piece |].
  apply piece_of_reverse, trimStart_piece.
Qed.

Lemma trim_trimmed is_ws s :
  JsString.trim is_ws s ≠ [] → trimmed is_ws (JsString.trim is_ws s).
Proof.
  unfold JsString.trim. intros Hne. split; [done |].
  set (u := JsString.trimStart is_ws s) in *.
  set (v := JsString.trimStart is_ws (reverse u)) in *.
  split; intros x.
  - rewrite head_reverse. intros Hx.
    destruct (trimStart_suffix is_ws (reverse u)) as (b & Hb). fold v in Hb.
    assert (last (reverse u) = Some x) as Hlast.
    { rewrite Hb, last_app, Hx. done. }
    rewrite last_reverse in Hlast. by apply (trimStart_head is_ws s).
  - rewrite last_reverse. apply trimStart_head.
Qed.

Lemma split_nonempty (sep : A) s : JsString.split sep s ≠ [].
Proof.
  destruct s as [|x s]; simpl; [done |].
  case_decide; [done |]. by destruct (JsString.split sep s).
Qed.

Lemma split_no_sep (sep : A) s :
  Forall (λ l, sep ∉ l) (JsString.split sep s).
Proof.
  induction s as [|x s IH]; simpl.
  - apply Forall_cons. split; [apply not_elem_of_nil | apply Forall_nil_2].
  - case_decide as Hx.
    + apply Forall_cons. split; [apply not_elem_of_nil | done].
    + destruct (JsString.split sep s) as [|l ls].
      * apply Forall_cons. split; [|apply Forall_nil_2].
        rewrite list_elem_of_singleton. congruence.
      * apply Forall_cons in IH as [Hl Hls]. apply Forall_cons. split; [|done].
        rewrite elem_of_cons. intros [?|?]; [congruence | done].
Qed.

Lemma join_split (sep : A) s : JsString.join sep (JsString.split sep s) = s.
Proof.
  induction s as [|x s IH]; simpl; [done |].
  pose proof (split_nonempty sep s) as Hne.
  case_decide as Hx.
  - subst x. destruct (JsString.split sep s) as [|l ls]; [done |].
    simpl in *. by rewrite IH.
  - destruct (JsString.split sep s) as [|l ls]; [done |].
    simpl in *. destruct ls; simpl in *; by rewrite <- IH.
Qed.

(** Splitting what [join] built gives the pieces back, when there is at
    least one piece and no piece holds the separator. *)
Lemma split_join (sep : A) (ls : list (list A)) :
  ls ≠ [] → Forall (λ l, sep ∉ l) ls →
  JsString.split sep (JsString.join sep ls) = ls.
Proof.
  induction ls as [|l ls IH]; [done |]. intros _ Hall.
  apply Forall_cons in Hall as [Hl Hls].
  assert (∀ (l : list A) rest, sep ∉ l → rest ≠ [] →
            JsString.split sep (l ++ sep :: JsString.join sep rest) =
            l :: JsString.split sep (JsString.join sep rest)) as Hcons.
  { clear. intros l rest. induction l as [|x l IHl]; intros Hl Hrest; simpl.
    - by rewrite decide_True.
    - rewrite decide_False by (intros ->; apply Hl; left).
      rewrite IHl; [done | | done]. intros ?. apply Hl. by right. }
  assert (∀ l : list A, sep ∉ l → JsString.split sep l = [l]) as Hone.
  { clear. intros l. induction l as [|x l IHl]; intros Hl; simpl; [done |].
    rewrite decide_False by (intros ->; apply Hl; left).
    rewrite IHl; [done |]. intros ?. apply Hl. by right. }
  destruct ls as [|l' ls'].
  - simpl. by apply Hone.
  - change (JsString.join sep (l :: l' :: ls'))
      with (l ++ sep :: JsString.join sep (l' :: ls')).
    rewrite Hcons by done. by rewrite IH.
Qed.

End JsStringFacts.

(** ** The chunker of [EmbedNode] *)

Section ChunkFacts.

Context {A : Type} `{EqDecision A} (space : A) (is_ws : A → bool).
Implicit Types (text c : list A) (chunks res : list (list A)) (start : Z)
  (r : completion (list (list A))).
Local Open Scope list_scope.
Local Open Scope nat_scope.

(** The slice the loop takes when [startIndex] is at least 1. *)
Local Abbreviation later_slice text start :=
  (JsString.slice text
     (start - 128 +
      JsString.indexOf space
        (JsString.substring text (Z.max 0 (start - 128))
           (Z.max 0 (start - 128) + 128)))
     (start + 2048)).

Lemma push_ok chunks c :
  (Z.of_nat (length chunks) < 4294967295)%Z →
  push chunks c = Normal (chunks ++ [c]).
Proof.
  intros Hlen. unfold push.
  by destruct (decide (Z.of_nat (length chunks) < 4294967295)%Z).
Qed.

Lemma push_inv chunks c chunks' :
  push chunks c = Normal chunks' → chunks' = chunks ++ [c].
Proof.
  unfold push.
  destruct (decide (Z.of_nat (length chunks) < 4294967295)%Z); [|done].
  by intros [= <-].
Qed.

Lemma chunk_loop_exit fuel text start chunks :
  ¬ (start < Z.of_nat (length text))%Z →
  chunk_loop space is_ws fuel text start chunks = Some (Normal chunks).
Proof.
  intros Hge.
  destruct fuel; simpl;
    by destruct (decide (start < Z.of_nat (length text))%Z).
Qed.

Lemma chunk_loop_out_of_fuel text start chunks :
  (start < Z.of_nat (length text))%Z →
  chunk_loop space is_ws 0 text start chunks = None.
Proof.
  intros Hlt. simpl.
  by destruct (decide (start < Z.of_nat (length text))%Z).
Qed.

Lemma chunk_loop_first fuel text start chunks :
  (start < Z.of_nat (length text))%Z → (start < 1)%Z →
  chunk_loop space is_ws (S fuel) text start chunks =
    match push chunks (JsString.slice text 0 (start + 2048)) with
    | Throw e => Some (Throw e)
    | Normal chunks' => chunk_loop space is_ws fuel text (start + 2048) chunks'
    end.
Proof.
  intros Hlt H1.
  cbn [chunk_loop]. unfold maxChars, overlap.
  destruct (decide (start < Z.of_nat (length text))%Z); [|done].
  destruct (decide (start < 1)%Z); [|done].
  by replace (start + (2048 - 256) + 256)%Z with (start + 2048)%Z by lia.
Qed.

Lemma chunk_loop_later fuel text start chunks :
  (start < Z.of_nat (length text))%Z → ¬ (start < 1)%Z →
  chunk_loop space is_ws (S fuel) text start chunks =
    if decide (0 < length (JsString.trim is_ws (later_slice text start)))
    then match push chunks (JsString.trim is_ws (later_slice text start)) with
         | Throw e => Some (Throw e)
         | Normal chunks' => chunk_loop space is_ws fuel text (start + 2048) chunks'
         end
    else chunk_loop space is_ws fuel text (start + 2048) chunks.
Proof.
  intros Hlt H1.
  cbn [chunk_loop]. unfold maxChars, overlap.
  destruct (decide (start < Z.of_nat (length text))%Z); [|done].
  destruct (decide (start < 1)%Z); [done |].
  replace (start + (2048 - 256) + 256)%Z with (start + 2048)%Z by lia.
  by change (256 / 2)%Z with 128%Z.
Qed.

Lemma chunk_loop_step fuel text start chunks :
  (start < Z.of_nat (length text))%Z →
  ∃ c' : option (list A),
    chunk_loop space is_ws (S fuel) text start chunks =
      match c' with
      | None => chunk_loop space is_ws fuel text (start + 2048) chunks
      | Some c =>
          match push chunks c with
          | Throw e => Some (Throw e)
          | Normal chunks' => chunk_loop space is_ws fuel text (start + 2048) chunks'
          end
      end ∧
    match c' with
    | None => True
    | Some c =>
        if decide (start < 1)%Z then c = JsString.slice text 0 (start + 2048)
        else c = JsString.trim is_ws (later_slice text start) ∧ 0 < length c
    end.
Proof.
  intros Hlt. destruct (decide (start < 1)%Z) as [H1|H1].
  - exists (Some (JsString.slice text 0 (start + 2048))).
    split; [by apply chunk_loop_first | done].
  - rewrite chunk_loop_later by done.
    destruct (decide (0 < length (JsString.trim is_ws (later_slice text start))))
      as [Hlen|Hlen].
    + by exists (Some (JsString.trim is_ws (later_slice text start))).
    + by exists None.
Qed.

Lemma chunk_loop_Forall (P : list A → Prop) fuel text start chunks res :
  (∀ a b, P (JsString.slice text a b)) →
  (∀ s, P s → P (JsString.trim is_ws s)) →
  Forall P chunks →
  chunk_loop space is_ws fuel text start chunks = Some (Normal res) →
  Forall P res.
Proof.
  intros Hslice Htrim. revert start chunks.
  induction fuel as [|fuel IH]; intros start chunks Hchunks.
  - destruct (decide (start < Z.of_nat (length text))%Z) as [Hlt|Hge].
    + by rewrite chunk_loop_out_of_fuel.
    + rewrite chunk_loop_exit by done. by intros [= <-].
  - destruct (decide (start < Z.of_nat (length text))%Z) as [Hlt|Hge].
    + destruct (chunk_loop_step fuel text start chunks Hlt) as (c' & -> & Hc).
      destruct c' as [c|]; [|by apply IH].
      destruct (push chunks c) as [chunks'|e] eqn:Hpush; [|done].
      apply push_inv in Hpush as ->. apply IH.
      apply Forall_app. split; [done |]. apply Forall_singleton.
      destruct (decide (start < 1)%Z); [subst c; apply Hslice |].
      destruct Hc as [-> _]. apply Htrim, Hslice.
    + rewrite chunk_loop_exit by done. by intros [= <-].
Qed.

Lemma chunk_loop_mono fuel fuel' text start chunks r :
  fuel ≤ fuel' →
  chunk_loop space is_ws fuel text start chunks = Some r →
  chunk_loop space is_ws fuel' text start chunks = Some r.
Proof.
  revert fuel' start chunks.
  induction fuel as [|fuel IH]; intros fuel' start chunks Hle.
  - destruct (decide (start < Z.of_nat (length text))%Z) as [Hlt|Hge].
    + by rewrite chunk_loop_out_of_fuel.
    + by rewrite !chunk_loop_exit.
  - destruct fuel' as [|fuel']; [lia |].
    destruct (decide (start < Z.of_nat (length text))%Z) as [Hlt|Hge].
    + destruct (decide (start < 1)%Z) as [H1|H1].
      * rewrite !chunk_loop_first by done.
        destruct (push chunks _) as [chunks'|e]; [|done]. apply IH. lia.
      * rewrite !chunk_loop_later by done.
        destruct (decide (0 < length _)); [|apply IH; lia].
        destruct (push chunks _) as [chunks'|e]; [|done]. apply IH. lia.
    + by rewrite !chunk_loop_exit.
Qed.

(** The loop ends within one iteration per code unit that is left; and
    when the array has room for one chunk per iteration that is left,
    no [push] throws. *)
Lemma chunk_loop_terminates fuel text start chunks :
  (Z.of_nat (length text) - start ≤ Z.of_nat fuel)%Z →
  ∃ r, chunk_loop space is_ws fuel text start chunks = Some r ∧
    ((Z.of_nat (length chunks) * 2048 +
        Z.max 0 (Z.of_nat (length text) - start + 2047) < 4294967296 * 2048)%Z →
     ∃ res, r = Normal res ∧ length chunks ≤ length res ∧
       ((Z.of_nat (length res) - Z.of_nat (length chunks)) * 2048 ≤
          Z.max 0 (Z.of_nat (length text) - start + 2047))%Z).
Proof.
  revert start chunks.
  induction fuel as [|fuel IH]; intros start chunks Hfuel.
  - exists (Normal chunks). rewrite chunk_loop_exit by lia. split; [done |].
    intros _. exists chunks. split_and!; [done | lia | lia].
  - destruct (decide (start < Z.of_nat (length text))%Z) as [Hlt|Hge].
    + destruct (chunk_loop_step fuel text start chunks Hlt) as (c' & -> & _).
      assert (∀ chunks', length chunks ≤ length chunks' ≤ S (length chunks) →
        ∃ r, chunk_loop space is_ws fuel text (start + 2048) chunks' = Some r ∧
          ((Z.of_nat (length chunks) * 2048 +
              Z.max 0 (Z.of_nat (length text) - start + 2047) < 4294967296 * 2048)%Z →
           ∃ res, r = Normal res ∧ length chunks ≤ length res ∧
             ((Z.of_nat (length res) - Z.of_nat (length chunks)) * 2048 ≤
                Z.max 0 (Z.of_nat (length text) - start + 2047))%Z)) as Hnext.
      { intros chunks' Hlen.
        destruct (IH (start + 2048)%Z chunks') as (r & Hr & Hroom); [lia |].
        exists r. split; [done |]. intros Hbound.
        destruct Hroom as (res & -> & Hle & Hcount); [lia |].
        exists res. split_and!; [done | lia | lia]. }
      destruct c' as [c|]; [|apply Hnext; lia].
      unfold push.
      destruct (decide (Z.of_nat (length chunks) < 4294967295)%Z) as [Hroom|Hfull].
      * apply Hnext. rewrite length_app. simpl. lia.
      * exists (Throw RangeError). split; [done |]. intros Hbound. lia.
    + exists (Normal chunks). rewrite chunk_loop_exit by lia. split; [done |].
      intros _. exists chunks. split_and!; [done | lia | lia].
Qed.

Lemma chunk_loop_trimmed fuel text start chunks res :
  (2048 ≤ start)%Z →
  chunk_loop space is_ws fuel text start chunks = Some (Normal res) →
  ∃ more, res = chunks ++ more ∧
    Forall (λ c, trimmed is_ws c ∧ length c ≤ 2177) more.
Proof.
  revert start chunks.
  induction fuel as [|fuel IH]; intros start chunks Hstart.
  - destruct (decide (start < Z.of_nat (length text))%Z) as [Hlt|Hge].
    + by rewrite chunk_loop_out_of_fuel.
    + rewrite chunk_loop_exit by done. intros [= <-]. exists [].
      by rewrite app_nil_r.
  - destruct (decide (start < Z.of_nat (length text))%Z) as [Hlt|Hge].
    + rewrite chunk_loop_later by (done || lia).
      destruct (decide (0 < length _)) as [Hlen|Hlen].
      * destruct (push chunks _) as [chunks'|e] eqn:Hpush; [|done].
        apply push_inv in Hpush as ->. intros Hres.
        apply IH in Hres as (more & -> & Hmore); [|lia].
        exists (JsString.trim is_ws (later_slice text start) :: more).
        split; [by rewrite <- app_assoc |].
        apply Forall_cons. split; [|done]. split.
        -- apply trim_trimmed. intros Hnil. rewrite Hnil in Hlen. simpl in Hlen. lia.
        -- pose proof (piece_of_length _ _
             (trim_piece is_ws (later_slice text start))) as Htrim.
           pose proof (indexOf_ge space
             (JsString.substring text (Z.max 0 (start - 128))
                (Z.max 0 (start - 128) + 128))) as Hidx.
           pose proof (length_slice_le text
             (start - 128 +
              JsString.indexOf space
                (JsString.substring text (Z.max 0 (start - 128))
                   (Z.max 0 (start - 128) + 128)))
             (start + 2048)) as Hsl.
           lia.
      * intros Hres. apply IH in Hres as (more & -> & Hmore); [|lia].
        by exists more.
    + rewrite chunk_loop_exit by done. intros [= <-]. exists [].
      by rewrite app_nil_r.
Qed.

(** X16. At the sizes it is always called with, a [maxChars] of 2048
    and an [overlap] of 256, the loop of [chunk] ends: a budget of one
    iteration per code unit is enough, and a larger budget ends the
    same way. For a text of at most [2^43 - 2048] code units no [push]
    throws: [chunk] returns an array, of at most [text.length / 2048],
    rounded up, chunks. *)
Theorem chunk_terminates (fuel : nat) text :
  length text ≤ fuel →
  ∃ r, chunk space is_ws fuel text = Some r ∧
    chunk space is_ws (length text) text = Some r ∧
    ((Z.of_nat (length text) ≤ 8796093020160)%Z →
     ∃ chunks, r = Normal chunks ∧
       (Z.of_nat (length chunks) * 2048 ≤ Z.of_nat (length text) + 2047)%Z).
Proof.
  intros Hfuel. unfold chunk.
  destruct (chunk_loop_terminates (length text) text 0 [])
    as (r & Hr & Hroom); [lia |].
  exists r. split_and!; [| done |].
  - by apply (chunk_loop_mono (length text) fuel).
  - intros Hlen. destruct Hroom as (res & -> & _ & Hcount); [simpl; lia |].
    exists res. split; [done |]. simpl in Hcount. lia.
Qed.

(** X18. The empty text has no chunks, and a text that is not empty
    and not longer than 2048 code units is its own single chunk, white
    space at its ends included. *)
Theorem chunk_short_text (fuel : nat) text :
  chunk space is_ws fuel [] = Some (Normal []) ∧
  (text ≠ [] → length text ≤ 2048 →
     chunk space is_ws (S fuel) text = Some (Normal [text])).
Proof.
  split.
  - unfold chunk. apply chunk_loop_exit. simpl. lia.
  - intros Htext Hlen. unfold chunk.
    assert (0 < length text) as Hpos by (destruct text; [done | simpl; lia]).
    rewrite chunk_loop_first by lia.
    rewrite push_ok by (simpl; lia).
    rewrite chunk_loop_exit by lia. simpl.
    rewrite slice_from_0 by lia. by rewrite take_ge by lia.
Qed.

(** X19. Every chunk that [chunk] returns is a contiguous piece of the
    text, and the first chunk of a text that is not empty is its first
    2048 code units, untrimmed. *)
Theorem chunks_are_pieces (fuel : nat) text chunks :
  chunk space is_ws fuel text = Some (Normal chunks) →
  Forall (piece_of text) chunks ∧
  (text ≠ [] → head chunks = Some (take 2048 text)).
Proof.
  intros Hchunk. split.
  - apply (chunk_loop_Forall (piece_of text) fuel text 0 [] chunks);
      [ | | apply Forall_nil_2 | done].
    + intros a b. apply slice_piece.
    + intros s Hs. apply (piece_of_trans _ s); [done | apply trim_piece].
  - intros Htext. unfold chunk in Hchunk.
    assert (0 < length text) as Hpos by (destruct text; [done | simpl; lia]).
    destruct fuel as [|fuel]; [by rewrite chunk_loop_out_of_fuel in Hchunk by lia |].
    rewrite chunk_loop_first in Hchunk by lia.
    rewrite push_ok in Hchunk by (simpl; lia).
    apply chunk_loop_trimmed in Hchunk as (more & -> & _); [|lia].
    simpl. by rewrite slice_from_0 by lia.
Qed.

(** X20. Every chunk that [chunk] returns after the first is not empty
    and neither begins nor ends with white space, and no chunk is
    longer than 2177 code units: 2048, plus half the overlap, plus
    one. *)
Theorem later_chunks_are_trimmed (fuel : nat) text chunks :
  chunk space is_ws fuel text = Some (Normal chunks) →
  Forall (trimmed is_ws) (tail chunks) ∧
  Forall (λ c, length c ≤ 2177) chunks.
Proof.
  intros Hchunk. unfold chunk in Hchunk.
  destruct (decide (text = [])) as [->|Htext].
  { rewrite chunk_loop_exit in Hchunk by (simpl; lia).
    injection Hchunk as <-. split; apply Forall_nil_2. }
  assert (0 < length text) as Hpos by (destruct text; [done | simpl; lia]).
  destruct fuel as [|fuel]; [by rewrite chunk_loop_out_of_fuel in Hchunk by lia |].
  rewrite chunk_loop_first in Hchunk by lia.
  rewrite push_ok in Hchunk by (simpl; lia).
  apply chunk_loop_trimmed in Hchunk as (more & -> & Hmore); [|lia].
  simpl. split.
  - eapply Forall_impl; [exact Hmore |]. by intros c [Hc _].
  - apply Forall_cons. split.
    + rewrite slice_from_0 by lia. rewrite length_take. lia.
    + eapply Forall_impl; [exact Hmore |]. by intros c [_ Hc].
Qed.

(** [this.chunk(doc)] always ends, the way [chunk_default] says. *)
Lemma chunk_default_returns (doc : list A) :
  chunk space is_ws (length doc) doc = Some (chunk_default space is_ws doc).
Proof.
  unfold chunk_default, chunk.
  destruct (chunk_loop_terminates (length doc) doc 0 []) as (r & -> & _); [lia |].
  done.
Qed.

End ChunkFacts.

(** ** The [embed] pipeline of the example server *)

Section RagFacts.

Context {A : Type} `{EqDecision A} (space newline : A) (is_ws : A → bool).
Context {F U Db : Type}.
Context (embeddings_create : U → list (list A) → completion (list (list F)) * U).
Context (initDb : Db → completion unit * Db).
Context (insertEmbedding : Db → list A → list F → completion unit * Db).
Local Open Scope list_scope.
Local Open Scope nat_scope.

Local Abbreviation EmbedResult := (@Rag.EmbedResult A F).
Local Abbreviation store := (Rag.StoreNode_next (U := U) insertEmbedding).
Local Abbreviation embedder :=
  (Rag.EmbedNode_next (Db := Db) space is_ws embeddings_create "store").
Local Abbreviation initial input :=
  ({| Rag.documents := [Rag.inputTrimmed newline input]; Rag.embedded := None |}
   : EmbedResult).

Lemma truthy_filter_idem (ls : list (list A)) :
  filter (λ v, JsString.truthy v = true) (filter (λ v, JsString.truthy v = true) ls) =
  filter (λ v, JsString.truthy v = true) ls.
Proof.
  induction ls as [|l ls IH]; [done |].
  rewrite filter_cons. case_decide as Hl; [|done].
  rewrite filter_cons, decide_True by done. by rewrite IH.
Qed.

(** X21. What [embed] feeds the chunker has no empty line: the text is
    split at line feeds, empty pieces are dropped and the rest is joined
    again. Doing it twice is doing it once; a text without empty lines
    is left as it is; and the lines of a result that is not empty are
    the non-empty lines of the input, in order. *)
Theorem inputTrimmed_drops_empty_lines (input : list A) :
  Rag.inputTrimmed newline (Rag.inputTrimmed newline input) =
    Rag.inputTrimmed newline input ∧
  (Forall (λ l, JsString.truthy l = true) (JsString.split newline input) →
     Rag.inputTrimmed newline input = input) ∧
  (Rag.inputTrimmed newline input ≠ [] →
     JsString.split newline (Rag.inputTrimmed newline input) =
       filter (λ l, JsString.truthy l = true) (JsString.split newline input)).
Proof.
  unfold Rag.inputTrimmed.
  set (L := filter (λ v, JsString.truthy v = true) (JsString.split newline input)).
  assert (L ≠ [] → JsString.split newline (JsString.join newline L) = L) as Hsplit.
  { intros HL. apply split_join; [done |].
    apply Forall_forall. intros l Hl. subst L.
    apply list_elem_of_filter in Hl as [_ Hl].
    by apply (proj1 (Forall_forall _ _) (split_no_sep newline input)). }
  split_and!.
  - destruct (decide (L = [])) as [HL|HL].
    + by rewrite HL.
    + rewrite Hsplit by done. subst L. by rewrite truthy_filter_idem.
  - intros Hall. subst L.
    assert (∀ ls : list (list A), Forall (λ l, JsString.truthy l = true) ls →
              filter (λ v, JsString.truthy v = true) ls = ls) as Hid.
    { clear. induction ls as [|l ls IH]; [done |]. intros Hls.
      apply Forall_cons in Hls as [Hl Hls].
      rewrite filter_cons, decide_True by done. by rewrite IH. }
    rewrite Hid by done. apply join_split.
  - intros Hne. apply Hsplit. intros HL. by rewrite HL in Hne.
Qed.

Lemma embed_builder_graph :
  Rag.embed_builder space is_ws embeddings_create insertEmbedding =
    (Normal tt,
     {| _context := ∅;
        _currentNode := Some {| node := Some embedder; key := "embed" |};
        _transitions := {["embed" := ["store"]]};
        _nodes := <["store" := store]> {["embed" := embedder]} |}).
Proof.
  reflexivity.
Qed.

Lemma spread_same_key (k : string) (x y : EmbedResult) (c : gmap string EmbedResult) :
  spread c {[k := y]} !! k = Some y ∧
  spread (spread {[k := x]} {[k := y]}) {[k := x]} = {[k := x]} ∧
  spread (∅ : gmap string EmbedResult) {[k := x]} = {[k := x]}.
Proof.
  split_and!.
  - by rewrite lookup_spread, lookup_singleton_eq.
  - apply map_eq. intros j. rewrite lookup_spread.
    destruct (decide (k = j)) as [->|Hne].
    + by rewrite !lookup_singleton_eq.
    + rewrite lookup_singleton_ne by done.
      rewrite lookup_spread. by rewrite !lookup_singleton_ne by done.
  - unfold spread. apply (right_id_L ∅ (∪)).
Qed.

Lemma EmbedResult_all_stringify : all_stringify EmbedResult.
Proof. intros v. reflexivity. Qed.

Lemma embedder_shape (input : list A) (u : U) (db : Db) (ts : list string)
    (c : gmap string EmbedResult) :
  c !! "embed" = Some (initial input) →
  let u' := match chunk_docs space is_ws [Rag.inputTrimmed newline input] [] with
            | Normal chunks => (embeddings_create u chunks).2
            | Throw _ => u
            end in
  (∃ e, embedder (u, db) c ts = (Threw e, (u', db))) ∨
  (∃ e2 : EmbedResult,
     embedder (u, db) c ts =
       (Returned {| context := Some (Static {["embed" := e2]});
                    transition := Some "store" |}, (u', db))).
Proof.
  intros Hc. unfold Rag.EmbedNode_next, Rag.llmEmbed. rewrite Hc.
  cbn [Rag.documents fst snd].
  destruct (chunk_docs space is_ws [Rag.inputTrimmed newline input] [])
    as [chunks|e0]; [|left; eauto].
  destruct (embeddings_create u chunks) as [[data|e] u1]; cbn [fst snd];
    [|left; eauto].
  destruct (Rag.pair_up _ data) as [vec|]; [right | left]; eauto.
Qed.

(** X22. [embed] never stores anything. Whatever the text and whatever
    the embedding service and the database answer, once [initDb] has
    resolved, [embed] resolves with the context it started from, without
    the embeddings, and leaves the database as [initDb] left it:
    [insertEmbedding] is never called. The patch that [run] merges again
    before the step of [StoreNode] puts back an [embed] field without
    [embedded], on which [StoreNode] throws; [step] contains the error.
    The embedding service is called once, with the chunks of the text,
    unless chunking throws. When [initDb] rejects, [embed] rejects with
    its error. *)
Theorem embed_never_inserts (fuel : nat) (input : list A) (u : U) (db : Db) :
  2 ≤ fuel →
  match initDb db with
  | (Throw e, db1) =>
      Rag.server_embed space newline is_ws embeddings_create initDb insertEmbedding
        fuel input (u, db) = Some (Throw e, (u, db1))
  | (Normal _, db1) =>
      Rag.server_embed space newline is_ws embeddings_create initDb insertEmbedding
        fuel input (u, db) =
        Some (Normal {["embed" := initial input]},
              (match chunk_docs space is_ws [Rag.inputTrimmed newline input] [] with
               | Normal chunks => (embeddings_create u chunks).2
               | Throw _ => u
               end, db1))
  end.
Proof.
  intros Hfuel. destruct fuel as [|[|fuel]]; [lia | lia |].
  unfold Rag.server_embed. cbn [fst snd].
  destruct (initDb db) as [[[]|e] db1]; [|done].
  rewrite embed_builder_graph.
  set (P := ({["embed" := initial input]} : gmap string EmbedResult)).
  set (G := {| _context := ∅;
               _currentNode := Some {| node := Some embedder; key := "embed" |};
               _transitions := {["embed" := ["store"]]};
               _nodes := <["store" := store]> {["embed" := embedder]} |}).
  pose proof (λ c : gmap string EmbedResult,
                ctx_ok_all c EmbedResult_all_stringify) as Hok.
  assert (spread ∅ P = P) as Hempty by (unfold spread; apply (right_id_L ∅ (∪))).
  unfold run, Rag.embed_patch. fold P. rewrite applyPatch_static.
  change (_context G) with (∅ : gmap string EmbedResult).
  rewrite Hempty, (stringify_ok P (Hok P)).
  assert (applyPatch P (Some (Static P)) (u, db1) = (Normal P, (u, db1))) as HP.
  { assert (spread P P = P) as HPP by (unfold spread; apply (idemp_L (∪))).
    by rewrite applyPatch_static, HPP. }
  set (u' := match chunk_docs space is_ws [Rag.inputTrimmed newline input] [] with
             | Normal chunks => (embeddings_create u chunks).2
             | Throw _ => u
             end).
  set (ts := default [] (_transitions (set_context P G) !! "embed")).
  destruct (embedder_shape input u db1 ts P (lookup_singleton_eq _ _))
    as [(e & Hcall) | (e2 & Hcall)]; fold u' in Hcall.
  - pose proof (step_invokes (Some (Static P)) (set_context P G) (u, db1)
                  {| node := Some embedder; key := "embed" |} embedder P (u, db1)
                  eq_refl eq_refl HP (Hok P)) as Hstep.
    cbn [key] in Hstep. fold ts in Hstep. rewrite Hcall in Hstep.
    rewrite (run_loop_stops (S fuel) _ _ _ _ _ _ Hstep eq_refl). done.
  - set (c1 := spread P {["embed" := e2]}).
    assert (step (Some (Static P)) (set_context P G) (u, db1) =
            (Continue,
             set_currentNode {| node := Some store; key := "store" |}
               (set_context c1 G), (u', db1))) as Hstep.
    { rewrite (step_returned (Some (Static P)) (set_context P G) (u, db1)
                 {| node := Some embedder; key := "embed" |} embedder P (u, db1)
                 (Some (Static {["embed" := e2]})) (Some "store") (u', db1)
                 eq_refl eq_refl HP (Hok P) Hcall).
      cbn [patch_ok patch_mapping]. fold c1. rewrite !Hok.
      reflexivity. }
    rewrite (run_loop_continues (S fuel) _ _ _ _ _ Hstep).
    assert (applyPatch c1 (Some (Static P)) (u', db1) = (Normal P, (u', db1))) as HP2.
    { destruct (spread_same_key "embed" (initial input) e2 P) as (_ & Hback & _).
      rewrite applyPatch_static. subst c1 P. by rewrite Hback. }
    pose proof (step_invokes (Some (Static P))
                  (set_currentNode {| node := Some store; key := "store" |}
                     (set_context c1 G)) (u', db1)
                  {| node := Some store; key := "store" |} store P (u', db1)
                  eq_refl eq_refl HP2 (Hok P)) as Hstep2.
    assert (∀ l, store (u', db1) P l = (Threw TypeError, (u', db1))) as Hstore.
    { intros l. unfold Rag.StoreNode_next. subst P.
      by rewrite lookup_singleton_eq. }
    rewrite Hstore in Hstep2.
    by rewrite (run_loop_stops fuel _ _ _ _ _ _ Hstep2 eq_refl).
Qed.

End RagFacts.

(** ** The further theorems at concrete inputs *)

Module ExtraInstances.

Import Scenario.
Import Sample.

Local Open Scope Z_scope.


(** The tables after the run of the two-node graph. *)
Lemma tables_read_only_during_execution_witness :
  match run 3 None two_nodes_started [] with
  | Some (_, g', _) =>
      _transitions g' = _transitions two_nodes_started ∧
      _nodes g' = _nodes two_nodes_started
  | None => True
  end.
Proof.
  destruct (run 3 None two_nodes_started []) as [[[r g'] w']|] eqn:Hrun; [|exact I].
  exact (proj2 (tables_read_only_during_execution None two_nodes_started [])
           3%nat r g' w' Hrun).
Defined.

(** The step in which the start node throws leaves the pointer on it. *)
Lemma pointer_moves_only_on_true_witness :
  _currentNode (step None throwing_started []).1.2 = _currentNode throwing_started.
Proof.
  apply (proj1 (pointer_moves_only_on_true None throwing_started [])
           (step None throwing_started []).1.1
           (step None throwing_started []).1.2
           (step None throwing_started []).2 eq_refl).
  discriminate.
Defined.

(** The first step of the two-node graph follows the edge [A -> B]. *)
Lemma continue_follows_edge_witness :
  ∃ cur (t : string) s,
    _currentNode two_nodes_started = Some cur ∧ is_Some (node cur) ∧
    _transitions two_nodes_started !! key cur = Some s ∧ t ∈ s ∧ t ≠ EmptyString ∧
    _currentNode (step None two_nodes_started []).1.2 =
      Some {| node := _nodes two_nodes_started !! t; key := t |}.
Proof.
  exact (continue_follows_edge None two_nodes_started []
           (step None two_nodes_started []).1.2
           (step None two_nodes_started []).2 eq_refl).
Defined.

(** The same step, forwards. *)
Lemma valid_transition_advances_witness :
  step None two_nodes_started [] =
    (Continue, (setStart "B" (set_context {["x" := 1]} two_nodes_started)).2, ["A"]).
Proof.
  apply (valid_transition_advances (JsonValue0 := Z_json) None two_nodes_started []
           {| node := Some (emit "A" (Some (Static {["x" := 1]})) (Some "B"));
              key := "A" |}
           (emit "A" (Some (Static {["x" := 1]})) (Some "B"))
           ∅ [] (Some (Static {["x" := 1]})) "B" ["A"] {["x" := 1]} ["A"]
           (emit "B" (Some (Static {["y" := 2]})) None)
           eq_refl eq_refl eq_refl eq_refl eq_refl eq_refl eq_refl eq_refl
           ltac:(discriminate) eq_refl eq_refl).
Defined.


(** The patch of [A] throws although [A -> B] is wired and registered. *)
Lemma failing_node_patch_commits_nothing_witness :
  step None failing_patch [] =
    (Halted (Error "boom"), set_context ∅ failing_patch, ["A"]) ∧
  run 2 None failing_patch [] =
    Some (Normal ∅, set_context ∅ failing_patch, ["A"]).
Proof.
  destruct (failing_node_patch_commits_nothing (JsonValue0 := Z_json) None failing_patch []
              {| node := Some (emit "A" (Some (Computed boom)) (Some "B")); key := "A" |}
              (emit "A" (Some (Computed boom)) (Some "B")) ∅ [] boom (Some "B")
              ["A"] (Error "boom") ["A"]
              eq_refl eq_refl eq_refl eq_refl eq_refl eq_refl) as [Hs Hrun].
  split; [exact Hs |].
  apply (Hrun 0%nat failing_patch [] 2%nat); [reflexivity | lia].
Defined.

(** The empty name is wired and registered, and the run still ends on [A]. *)
Lemma empty_transition_terminates_witness :
  step None empty_name [] = (Done, set_context {["x" := 1]} empty_name, ["A"]) ∧
  run 2 None empty_name [] =
    Some (Normal {["x" := 1]}, set_context {["x" := 1]} empty_name, ["A"]).
Proof.
  destruct (empty_transition_terminates (JsonValue0 := Z_json) None empty_name []
              {| node := Some (emit "A" (Some (Static {["x" := 1]})) (Some EmptyString));
                 key := "A" |}
              (emit "A" (Some (Static {["x" := 1]})) (Some EmptyString))
              ∅ [] (Some (Static {["x" := 1]})) ["A"]
              eq_refl eq_refl eq_refl eq_refl eq_refl)
    as (o & c' & w' & Hs & _ & _ & Hrun & Hm & _).
  destruct (Hm {["x" := 1]} ["A"] eq_refl eq_refl) as (Hc' & Hw' & Ho).
  subst c' w' o.
  split; [exact Hs |].
  apply (Hrun 0%nat empty_name [] 2%nat); [reflexivity | lia].
Defined.

(** The edge [A -> Z] without a node [Z]. *)
Lemma dangling_target_halts_next_step_witness :
  step None dangling_started [] =
    (Continue,
     set_currentNode {| node := None; key := "Z" |}
       (set_context {["x" := 1]} dangling_started), ["A"]) ∧
  current (step None
    (set_currentNode {| node := None; key := "Z" |}
       (set_context {["x" := 1]} dangling_started)) ["A"]).1.2 = Some "Z" ∧
  step None
    (set_currentNode {| node := None; key := "Z" |}
       (set_context {["x" := 1]} dangling_started)) ["A"] =
    (Halted TypeError,
     set_context {["x" := 1]}
       (set_currentNode {| node := None; key := "Z" |}
          (set_context {["x" := 1]} dangling_started)), ["A"]).
Proof.
  destruct (dangling_target_halts_next_step (JsonValue0 := Z_json)
              None dangling_started []
              {| node := Some (emit "A" (Some (Static {["x" := 1]})) (Some "Z"));
                 key := "A" |}
              (emit "A" (Some (Static {["x" := 1]})) (Some "Z"))
              ∅ [] (Some (Static {["x" := 1]})) "Z" ["A"] {["x" := 1]} ["A"]
              eq_refl eq_refl eq_refl eq_refl eq_refl ltac:(discriminate)
              eq_refl eq_refl eq_refl eq_refl eq_refl)
    as (Hs & _ & Hnext).
  split; [exact Hs |].
  exact (Hnext None ["A"]).
Defined.

(** Registering [A] leaves [setStart("B")] as it was. *)
Lemma register_then_start_witness :
  (setStart "B" (add_node "A" (silent "A") two_nodes)).1 = (setStart "B" two_nodes).1.
Proof.
  destruct (register_then_start "A" (silent "A") (silent "A") two_nodes)
    as (_ & _ & Hother).
  apply (Hother "B"). discriminate.
Defined.

(** The table of the started two-node graph. *)
Lemma outgoing_sets_stay_sets_witness :
  table_wf (edge "A" "C" two_nodes_started) ∧
  table_wf (step None two_nodes_started []).1.2 ∧
  NoDup (default [] (_transitions two_nodes_started !! "A")).
Proof.
  destruct (proj2 (outgoing_sets_stay_sets two_nodes_started)
              (edge_wf "A" "B" (new_Graph Z T) (@new_Graph_wf Z T)))
    as (Hedge & _ & _ & Hstep & Hnodup).
  split_and!; [apply Hedge | apply Hstep | apply Hnodup].
Defined.

(** [step] with the patch that throws, and with a BigInt. *)
Lemma step_rejects_iff_head_throws_witness :
  ((step (Some (Computed boom)) two_nodes_started []).1.1 = Rejected (Error "boom") ∧
   (step (Some (Computed boom)) two_nodes_started []).1.2 = two_nodes_started) ∧
  ((step (Some (Static {["n" := BigInt 1]})) with_bigints []).1.1 = Rejected TypeError ∧
   (step (Some (Static {["n" := BigInt 1]})) with_bigints []).1.2 =
     set_context {["n" := BigInt 1]} with_bigints).
Proof.
  destruct (step_rejects_iff_head_throws (Some (Computed boom)) two_nodes_started []
              (Error "boom")) as ([_ Hrej] & Hsame & _).
  destruct (step_rejects_iff_head_throws (JsonValue0 := jsnumber_json)
              (Some (Static {["n" := BigInt 1]})) with_bigints []
              TypeError) as ([_ Hrej'] & _ & Hlog).
  split; split.
  - apply Hrej. left. reflexivity.
  - apply Hsame. reflexivity.
  - apply Hrej'. right. split; [reflexivity |].
    exists {["n" := BigInt 1]}. split; reflexivity.
  - apply (Hlog {["n" := BigInt 1]}); reflexivity.
Defined.

(** The node that always names itself. *)
Lemma self_transition_never_settles_witness :
  run 7 None self_loop [] = None.
Proof.
  refine (self_transition_never_settles (JsonValue0 := Z_json) None self_loop []
            (emit "A" None (Some "A")) "A" eq_refl eq_refl eq_refl ltac:(discriminate)
            _ I _ 7%nat).
  - intros w0 c0 ts. by eexists.
  - intros v. reflexivity.
Defined.

Local Open Scope nat_scope.

Lemma long_text_length : length long_text = 4200.
Proof. vm_compute. reflexivity. Qed.

Lemma long_chunks_eq : chunk sp ws 3 long_text = Some (Normal long_chunks).
Proof. vm_compute. reflexivity. Qed.

Lemma long_chunks_length : length long_chunks = 3.
Proof. vm_compute. reflexivity. Qed.

(** A text of 4200 code units. *)
Lemma chunk_terminates_witness :
  ∃ r, chunk sp ws 4500 long_text = Some r ∧
    chunk sp ws (length long_text) long_text = Some r ∧
    ∃ chunks, r = Normal chunks ∧
      (Z.of_nat (length chunks) * 2048 ≤ Z.of_nat (length long_text) + 2047)%Z.
Proof.
  destruct (chunk_terminates sp ws 4500 long_text) as (r & Hr & Hlen & Hroom);
    [rewrite long_text_length; lia |].
  exists r. split_and!; [exact Hr | exact Hlen |].
  apply Hroom. rewrite long_text_length. lia.
Defined.

(** A text shorter than 2048 code units, with a space at its end. *)
Lemma chunk_short_text_witness :
  chunk sp ws 1 (units "abc ") = Some (Normal [units "abc "]).
Proof.
  apply (proj2 (chunk_short_text sp ws 0 (units "abc ")));
    [discriminate | vm_compute; lia].
Defined.

(** The three chunks of the text of 4200 code units. *)
Lemma chunks_are_pieces_witness :
  Forall (piece_of long_text) long_chunks ∧
  head long_chunks = Some (take 2048 long_text).
Proof.
  destruct (chunks_are_pieces sp ws 3 long_text long_chunks long_chunks_eq)
    as [Hp Hh].
  split; [exact Hp | apply Hh; discriminate].
Defined.

(** The same chunks: trimmed after the first, and none longer than 2177. *)
Lemma later_chunks_are_trimmed_witness :
  Forall (trimmed ws) (tail long_chunks) ∧
  Forall (λ c, length c ≤ 2177) long_chunks.
Proof.
  exact (later_chunks_are_trimmed sp ws 3 long_text long_chunks long_chunks_eq).
Defined.

(** A text without empty lines. *)
Lemma inputTrimmed_drops_empty_lines_witness :
  Rag.inputTrimmed lf (lf :: units "a" ++ lf :: lf :: units "b")%list ≠ [] ∧
  Rag.inputTrimmed lf (units "a" ++ lf :: units "b")%list = (units "a" ++ lf :: units "b")%list ∧
  JsString.split lf (Rag.inputTrimmed lf (lf :: units "a" ++ lf :: lf :: units "b")%list) =
    [units "a"; units "b"].
Proof.
  destruct (inputTrimmed_drops_empty_lines lf (units "a" ++ lf :: units "b")%list)
    as (_ & Hid & _).
  destruct (inputTrimmed_drops_empty_lines lf (lf :: units "a" ++ lf :: lf :: units "b")%list)
    as (_ & _ & Hlines).
  split_and!.
  - discriminate.
  - apply Hid. repeat constructor.
  - apply Hlines. discriminate.
Defined.

(** The embedding succeeds, and the database of rows stays empty. *)
Lemma embed_never_inserts_witness :
  Rag.server_embed sp lf ws service init insert 2 (units "some text") (tt, []) =
    Some (Normal {["embed" :=
            {| Rag.documents := [Rag.inputTrimmed lf (units "some text")];
               Rag.embedded := None |}]},
          (match chunk_docs sp ws [Rag.inputTrimmed lf (units "some text")] [] with
           | Normal chunks => (service tt chunks).2
           | Throw _ => tt
           end, [])).
Proof.
  exact (embed_never_inserts sp lf ws service init insert 2 (units "some text") tt []
           (le_n 2)).
Defined.

End ExtraInstances.
